(** * Wire codec and envelope framer of opencode-cursor-auth

    A shallow embedding of the hand-rolled protobuf helpers and of the
    Connect-envelope reassembly loop found in the repository's scripts:

    - the interaction-query test script (varint codec with BigInt,
      [parseProtoFields], the frame reassembly loop of [main]);
    - [scripts/debug-message-comparison.ts] (the two encodings of the
      conversation-state field);
    - the tool-encoding debug script (varint decoder on Numbers,
      [encodeProtobufValue]);
    - [scripts/fetch-models.ts] (the 5-byte frame header).

    A [Uint8Array] is a [list Z] whose elements are meant to lie in
    [0, 256); a BigInt is a [Z]; a JavaScript Number holding an integer is
    a [Z], with the 32-bit wrap-around of the bit operators written out. *)

From Stdlib Require Import ZArith List Lia Bool String Ascii Sorted.
From Equations Require Import Equations.
Import ListNotations.
Local Open Scope Z_scope.
#[local] Set Warnings "-register-all".

(** ** JavaScript primitives used by the scripts *)

Module JS.

(** [ToInt32]: the signed 32-bit value every bit operator works on. *)
Definition toInt32 (z : Z) : Z := (z + 2 ^ 31) mod 2 ^ 32 - 2 ^ 31.

(** Storing a Number into a [Uint8Array] keeps it modulo 256. *)
Definition toUint8 (z : Z) : Z := z mod 256.

(** [a << s] on Numbers: the shift count is taken modulo 32. *)
Definition shl (a s : Z) : Z := toInt32 (Z.shiftl (toInt32 a) (s mod 32)).

(** [a >> s] on Numbers (sign-propagating). *)
Definition shr (a s : Z) : Z := Z.shiftr (toInt32 a) (s mod 32).

(** [a | b] and [a & b] on Numbers. *)
Definition or (a b : Z) : Z := Z.lor (toInt32 a) (toInt32 b).
Definition and (a b : Z) : Z := Z.land (toInt32 a) (toInt32 b).

(** [arr.length]. *)
Definition len {A} (arr : list A) : Z := Z.of_nat (List.length arr).

(** [arr[i]]: [None] stands for [undefined]. *)
Definition get (arr : list Z) (i : Z) : option Z :=
  if i <? 0 then None else nth_error arr (Z.to_nat i).

(** An [undefined] operand of a bit operator counts as 0; this is also
    what [x ?? 0] gives. *)
Definition orZero (x : option Z) : Z :=
  match x with Some v => v | None => 0 end.

(** The relative index that [slice] computes from an argument. *)
Definition relIndex (n i : Z) : Z :=
  if i <? 0 then Z.max (n + i) 0 else Z.min i n.

(** [arr.slice(start, end)], negative arguments counting from the end. *)
Definition slice {A} (arr : list A) (start stop : Z) : list A :=
  let k := relIndex (len arr) start in
  let final := relIndex (len arr) stop in
  firstn (Z.to_nat (final - k)) (skipn (Z.to_nat k) arr).

(** [arr.slice(start)]. *)
Definition sliceFrom {A} (arr : list A) (start : Z) : list A :=
  slice arr start (len arr).

End JS.

(** ** Varints on BigInt values (interaction-query script) *)

(** [encodeVarint]: the loop [while (v > 127n) { push; v >>= 7n }] and
    the last push, filling the array [bytes] of Numbers. *)
Equations? encodeVarint_bytes (v : Z) : list Z by wf (Z.to_nat v) lt :=
  encodeVarint_bytes v with Z_gt_dec v 127 => {
    | left _ => JS.or (Z.land v 127) 128 :: encodeVarint_bytes (Z.shiftr v 7)
    | right _ => [v] }.
Proof.
  rewrite Z.shiftr_div_pow2 by lia.
  assert (v / 2 ^ 7 < v) by (apply Z.div_lt; lia).
  assert (0 <= v / 2 ^ 7) by (apply Z.div_pos; lia).
  lia.
Qed.

(** [return new Uint8Array(bytes)]. *)
Definition encodeVarint (v : Z) : list Z :=
  map JS.toUint8 (encodeVarint_bytes v).

(** The body of the [while] loop of [decodeVarint], run over the bytes
    from [offset + bytesRead] to the end of the array. *)
Fixpoint decodeVarint_loop (bytes : list Z) (value shift bytesRead : Z)
  : Z * Z :=
  match bytes with
  | [] => (value, bytesRead)
  | byte :: rest =>
      let value := Z.lor value (Z.shiftl (JS.and byte 127) shift) in
      let bytesRead := bytesRead + 1 in
      if JS.and byte 128 =? 0 then (value, bytesRead)
      else decodeVarint_loop rest value (shift + 7) bytesRead
  end.

(** [decodeVarint(data, offset)] returns [{ value, bytesRead }].  With a
    negative offset the first read is [undefined] and the loop breaks at
    once. *)
Definition decodeVarint (data : list Z) (offset : Z) : Z * Z :=
  if offset <? 0 then (0, 0)
  else decodeVarint_loop (skipn (Z.to_nat offset) data) 0 0 0.

(** The value a varint decoder has accumulated after reading [bytes]
    without stopping: the low seven bits of each byte, least significant
    group first. *)
Fixpoint accumulated (bytes : list Z) (value shift : Z) : Z :=
  match bytes with
  | [] => value
  | byte :: rest =>
      accumulated rest (Z.lor value (Z.shiftl (JS.and byte 127) shift))
        (shift + 7)
  end.

(** The same on 32-bit Numbers. *)
Fixpoint accumulated32 (bytes : list Z) (value shift : Z) : Z :=
  match bytes with
  | [] => value
  | byte :: rest =>
      accumulated32 rest (JS.or value (JS.shl (JS.and byte 127) shift))
        (shift + 7)
  end.

(** Every byte of the list has its continuation bit set. *)
Definition allContinue (bytes : list Z) : Prop :=
  Forall (fun byte => JS.and byte 128 <> 0) bytes.

(** ** Field encoders (interaction-query script) *)

(** [new TextEncoder().encode(value)]: a [string] is taken to hold the
    UTF-8 bytes of the JavaScript string. *)
Definition TextEncoder_encode (value : string) : list Z :=
  map (fun c => Z.of_N (N_of_ascii c)) (list_ascii_of_string value).

(** [concatBytes(...arrays)]. *)
Definition concatBytes (arrays : list (list Z)) : list Z := List.concat arrays.

(** [encodeStringField]: the tag is stored in one array cell. *)
Definition encodeStringField (fieldNumber : Z) (value : string) : list Z :=
  let fieldTag := JS.or (JS.shl fieldNumber 3) 2 in
  let encoded := TextEncoder_encode value in
  let length := encodeVarint (JS.len encoded) in
  JS.toUint8 fieldTag :: length ++ encoded.

(** [encodeInt32Field]: [if (value === 0) return new Uint8Array(0)]. *)
Definition encodeInt32Field (fieldNumber value : Z) : list Z :=
  if value =? 0 then []
  else
    let fieldTag := JS.or (JS.shl fieldNumber 3) 0 in
    let encoded := encodeVarint value in
    JS.toUint8 fieldTag :: encoded.

(** [encodeInt64Field]: no test on the value. *)
Definition encodeInt64Field (fieldNumber value : Z) : list Z :=
  let fieldTag := JS.or (JS.shl fieldNumber 3) 0 in
  let encoded := encodeVarint value in
  JS.toUint8 fieldTag :: encoded.

(** [encodeMessageField]: "always includes field even if empty". *)
Definition encodeMessageField (fieldNumber : Z) (data : list Z) : list Z :=
  let fieldTag := JS.or (JS.shl fieldNumber 3) 2 in
  let length := encodeVarint (JS.len data) in
  JS.toUint8 fieldTag :: length ++ data.

(** The [agentRunRequest] built by [main]; [emptyConvState] is
    [new Uint8Array(0)]. *)
Definition emptyConvState : list Z := [].

Definition agentRunRequest (conversationAction modelDetails : list Z)
    (conversationId : string) : list Z :=
  concatBytes
    [ encodeMessageField 1 emptyConvState;
      encodeMessageField 2 conversationAction;
      encodeMessageField 3 modelDetails;
      encodeStringField 5 conversationId ].

(** [bidiAppendRequest] of [main]. *)
Definition bidiAppendRequest (hexData : string)
    (bidiRequestIdForAppend : list Z) : list Z :=
  concatBytes
    [ encodeStringField 1 hexData;
      encodeMessageField 2 bidiRequestIdForAppend;
      encodeInt64Field 3 0 ].

(** ** [scripts/debug-message-comparison.ts]

    Its [encodeVarint], [encodeStringField], [encodeInt32Field],
    [encodeMessageField] and [concatBytes] are the ones above, word for
    word. *)

Module Compare.

Definition encodeUint32Field (fieldNumber value : Z) : list Z :=
  if value =? 0 then []
  else
    let fieldTag := JS.or (JS.shl fieldNumber 3) 0 in
    let encoded := encodeVarint value in
    JS.toUint8 fieldTag :: encoded.

(** "Version that skips empty messages (what test-exec-flow.ts
    uses)". *)
Definition encodeMessageFieldSkipEmpty (fieldNumber : Z) (data : list Z)
  : list Z :=
  if JS.len data =? 0 then []
  else
    let fieldTag := JS.or (JS.shl fieldNumber 3) 2 in
    let length := encodeVarint (JS.len data) in
    JS.toUint8 fieldTag :: length ++ data.

Definition emptyConvState1 : list Z := [].

(** "test-bidi-chat.ts style (WORKS)". *)
Definition agentRunRequest1 (conversationAction1 modelDetails1 : list Z)
    (conversationId : string) : list Z :=
  concatBytes
    [ encodeMessageField 1 emptyConvState1;
      encodeMessageField 2 conversationAction1;
      encodeMessageField 3 modelDetails1;
      encodeStringField 5 conversationId ].

(** "test-exec-flow.ts style (OLD - skipping empty)". *)
Definition agentRunRequest2 (conversationAction1 modelDetails1 : list Z)
    (conversationId : string) : list Z :=
  concatBytes
    [ encodeMessageFieldSkipEmpty 1 emptyConvState1;
      encodeMessageField 2 conversationAction1;
      encodeMessageField 3 modelDetails1;
      encodeStringField 5 conversationId ].

Definition agentClientMessage1 (conversationAction1 modelDetails1 : list Z)
    (conversationId : string) : list Z :=
  encodeMessageField 1
    (agentRunRequest1 conversationAction1 modelDetails1 conversationId).

Definition agentClientMessage2 (conversationAction1 modelDetails1 : list Z)
    (conversationId : string) : list Z :=
  encodeMessageField 1
    (agentRunRequest2 conversationAction1 modelDetails1 conversationId).

(** The number printed as "Length diff". *)
Definition lengthDiff (conversationAction1 modelDetails1 : list Z)
    (conversationId : string) : Z :=
  JS.len (agentClientMessage1 conversationAction1 modelDetails1
            conversationId)
  - JS.len (agentClientMessage2 conversationAction1 modelDetails1
              conversationId).

End Compare.

(** ** The tool-encoding debug script

    JSON-like values.  A number is kept as the bit pattern of its IEEE 754
    binary64 representation, which is all that [setFloat64] looks at; the
    entries of an object come in the order of [Object.entries]. *)

Inductive JsonValue : Type :=
| JNull
| JNumber (bits : Z)
| JString (s : string)
| JBool (b : bool)
| JArray (items : list JsonValue)
| JObject (entries : list (string * JsonValue)).

Module ToolEncoding.

(** [decodeVarint] on Numbers: same loop as above, but
    [value |= (byte & 0x7f) << shift] is computed on 32 bits. *)
Fixpoint decodeVarint_loop (bytes : list Z) (value shift bytesRead : Z)
  : Z * Z :=
  match bytes with
  | [] => (value, bytesRead)
  | byte :: rest =>
      let value := JS.or value (JS.shl (JS.and byte 127) shift) in
      let bytesRead := bytesRead + 1 in
      if JS.and byte 128 =? 0 then (value, bytesRead)
      else decodeVarint_loop rest value (shift + 7) bytesRead
  end.

Definition decodeVarint (data : list Z) (offset : Z) : Z * Z :=
  if offset <? 0 then (0, 0)
  else decodeVarint_loop (skipn (Z.to_nat offset) data) 0 0 0.

(** [encodeStringField]: here with [if (!value) return new
    Uint8Array(0)]. *)
Definition encodeStringField (fieldNumber : Z) (value : string) : list Z :=
  match value with
  | EmptyString => []
  | _ =>
      let fieldTag := JS.or (JS.shl fieldNumber 3) 2 in
      let encoded := TextEncoder_encode value in
      let length := encodeVarint (JS.len encoded) in
      JS.toUint8 fieldTag :: length ++ encoded
  end.

Definition encodeMessageField (fieldNumber : Z) (data : list Z) : list Z :=
  let fieldTag := JS.or (JS.shl fieldNumber 3) 2 in
  let length := encodeVarint (JS.len data) in
  JS.toUint8 fieldTag :: length ++ data.

Definition encodeBoolField (fieldNumber : Z) (value : bool) : list Z :=
  let fieldTag := JS.or (JS.shl fieldNumber 3) 0 in
  [JS.toUint8 fieldTag; if value then 1 else 0].

(** [view.setFloat64(1, value, true)]: the eight bytes of the number,
    least significant first. *)
Definition float64LE (bits : Z) : list Z :=
  map (fun i => Z.land (Z.shiftr bits (8 * i)) 255) [0; 1; 2; 3; 4; 5; 6; 7].

Definition encodeDoubleField (fieldNumber bits : Z) : list Z :=
  let fieldTag := JS.or (JS.shl fieldNumber 3) 1 in
  JS.toUint8 fieldTag :: float64LE bits.

Definition encodeUint32Field (fieldNumber value : Z) : list Z :=
  if value =? 0 then []
  else
    let fieldTag := JS.or (JS.shl fieldNumber 3) 0 in
    let encoded := encodeVarint value in
    JS.toUint8 fieldTag :: encoded.

(** "Encode google.protobuf.Value". *)
Fixpoint encodeProtobufValue (value : JsonValue) : list Z :=
  match value with
  | JNull => encodeUint32Field 1 0
  | JNumber bits => encodeDoubleField 2 bits
  | JString s => encodeStringField 3 s
  | JBool b => encodeBoolField 4 b
  | JArray items =>
      let listBytes :=
        map (fun item => encodeMessageField 1 (encodeProtobufValue item))
          items in
      let listValue := concatBytes listBytes in
      encodeMessageField 6 listValue
  | JObject entries =>
      let structBytes :=
        map (fun entry =>
               let keyBytes := encodeStringField 1 (fst entry) in
               let valBytes :=
                 encodeMessageField 2 (encodeProtobufValue (snd entry)) in
               let mapEntry := concatBytes [keyBytes; valBytes] in
               encodeMessageField 1 mapEntry)
          entries in
      let structValue := concatBytes structBytes in
      encodeMessageField 5 structValue
  end.

(** The truth value of a JSON-like value in [if (inputSchema)]: [null],
    zero, NaN, the empty string and [false] are falsy; arrays and objects
    are truthy.  A number is its binary64 bit pattern: bit 63 is the sign,
    bits 52 to 62 the exponent, the rest the fraction. *)
Definition truthy (value : JsonValue) : bool :=
  match value with
  | JNull => false
  | JNumber bits =>
      let magnitude := bits mod 2 ^ 63 in
      negb (magnitude =? 0) && (magnitude <=? 2047 * 2 ^ 52)
  | JString s => match s with EmptyString => false | _ => true end
  | JBool b => b
  | JArray _ => true
  | JObject _ => true
  end.

(** "Encode McpToolDefinition". *)
Definition encodeMcpToolDefinition (name description : string)
    (inputSchema : JsonValue) (providerIdentifier toolName : string)
  : list Z :=
  let parts := [encodeStringField 1 name; encodeStringField 2 description] in
  let parts :=
    if truthy inputSchema then
      let schemaValue := encodeProtobufValue inputSchema in
      parts ++ [encodeMessageField 3 schemaValue]
    else parts in
  let parts := parts ++ [encodeStringField 4 providerIdentifier] in
  let parts := parts ++ [encodeStringField 5 toolName] in
  concatBytes parts.

End ToolEncoding.

(** Equality of JSON-like values that does not look at the order of the
    keys of an object. *)
Inductive jsonEquiv : JsonValue -> JsonValue -> Prop :=
| EquivNull : jsonEquiv JNull JNull
| EquivNumber bits : jsonEquiv (JNumber bits) (JNumber bits)
| EquivString s : jsonEquiv (JString s) (JString s)
| EquivBool b : jsonEquiv (JBool b) (JBool b)
| EquivArray xs ys :
    Forall2 jsonEquiv xs ys -> jsonEquiv (JArray xs) (JArray ys)
| EquivObject es1 es2 :
    (forall k v, In (k, v) es1 ->
                 exists v', In (k, v') es2 /\ jsonEquiv v v') ->
    (forall k v', In (k, v') es2 ->
                  exists v, In (k, v) es1 /\ jsonEquiv v v') ->
    jsonEquiv (JObject es1) (JObject es2).

(** ** The schema-free decoder [parseProtoFields] *)

(** [value: Uint8Array | bigint]. *)
Inductive FieldValue : Type :=
| VBytes (bytes : list Z)
| VVarint (value : Z).

Record ParsedField : Type := mkField {
  pf_fieldNumber : Z;
  pf_wireType : Z;
  pf_value : FieldValue;
  pf_offset : Z;
  pf_length : Z
}.

(** One turn of the [while] loop of [parseProtoFields], entered with
    [offset < data.length].  [Some (field, offset')] is a pushed field and
    the offset after it; [None] is the [break] of the last branch
    ("Unknown wire type").  [Number(...)] of a BigInt is the identity
    here, which is exact below 2^53. *)
Definition parseField (data : list Z) (offset : Z)
  : option (ParsedField * Z) :=
  let startOffset := offset in
  let tagInfo := decodeVarint data offset in
  let offset := offset + snd tagInfo in
  let fieldNumber := Z.shiftr (fst tagInfo) 3 in
  let wireType := Z.land (fst tagInfo) 7 in
  if wireType =? 2 then
    let lengthInfo := decodeVarint data offset in
    let offset := offset + snd lengthInfo in
    let len := fst lengthInfo in
    let value := JS.slice data offset (offset + len) in
    let offset := offset + len in
    Some (mkField fieldNumber wireType (VBytes value) startOffset
            (offset - startOffset), offset)
  else if wireType =? 0 then
    let valueInfo := decodeVarint data offset in
    let offset := offset + snd valueInfo in
    Some (mkField fieldNumber wireType (VVarint (fst valueInfo)) startOffset
            (offset - startOffset), offset)
  else if wireType =? 1 then
    let value := JS.slice data offset (offset + 8) in
    let offset := offset + 8 in
    Some (mkField fieldNumber wireType (VBytes value) startOffset 8, offset)
  else if wireType =? 5 then
    let value := JS.slice data offset (offset + 4) in
    let offset := offset + 4 in
    Some (mkField fieldNumber wireType (VBytes value) startOffset 4, offset)
  else None.

(** The [while (offset < data.length)] loop.  [fuel] bounds the number of
    turns; [None] means the bound was reached. *)
Fixpoint parseProtoFields_loop (fuel : nat) (data : list Z) (offset : Z)
    (fields : list ParsedField) : option (list ParsedField) :=
  match fuel with
  | O => None
  | S fuel =>
      if offset <? JS.len data then
        match parseField data offset with
        | Some (field, offset) =>
            parseProtoFields_loop fuel data offset (fields ++ [field])
        | None => Some fields
        end
      else Some fields
  end.

(** [parseProtoFields(data)].  Every turn consumes at least the tag byte,
    so one more turn than there are bytes is always enough
    ([parseProtoFields_total]). *)
Definition parseProtoFields (data : list Z) : option (list ParsedField) :=
  parseProtoFields_loop (S (List.length data)) data 0 [].

(** ** The envelope framer: the reassembly loop of [main] *)

(** What the loop hands on for each frame: [flags ?? 0] and [frameData]. *)
Record WireFrame : Type := mkFrame {
  flags : Z;
  payload : list Z
}.

(** [(flags ?? 0) & 0x80]: a trailer frame. *)
Definition isTrailer (f : WireFrame) : bool :=
  negb (JS.and (flags f) 128 =? 0).

(** The big-endian length of the header at [offset], as the 32-bit
    expression of the script computes it. *)
Definition frameLength (fullBuffer : list Z) (offset : Z) : Z :=
  JS.or
    (JS.or
       (JS.or (JS.shl (JS.orZero (JS.get fullBuffer (offset + 1))) 24)
              (JS.shl (JS.orZero (JS.get fullBuffer (offset + 2))) 16))
       (JS.shl (JS.orZero (JS.get fullBuffer (offset + 3))) 8))
    (JS.orZero (JS.get fullBuffer (offset + 4))).

(** One turn of [while (offset + 5 <= fullBuffer.length)]: [None] when the
    loop stops (header not there yet, or the [break] of "Incomplete
    frame"), otherwise the frame and the offset after it. *)
Definition readFrame (fullBuffer : list Z) (offset : Z)
  : option (WireFrame * Z) :=
  if offset + 5 <=? JS.len fullBuffer then
    let flags := JS.get fullBuffer offset in
    let length := frameLength fullBuffer offset in
    if offset + 5 + length >? JS.len fullBuffer then None
    else
      let frameData :=
        JS.slice fullBuffer (offset + 5) (offset + 5 + length) in
      Some (mkFrame (JS.orZero flags) frameData, offset + 5 + length)
  else None.

(** "Parse all frames in the buffer".  The loop need not end on arbitrary
    bytes (a header whose 32-bit length is -5 leaves the offset where it
    is), hence the fuel; [None] means the bound was reached. *)
Fixpoint framesLoop (fuel : nat) (fullBuffer : list Z) (offset : Z)
    (frames : list WireFrame) : option (list WireFrame * Z) :=
  match fuel with
  | O => None
  | S fuel =>
      match readFrame fullBuffer offset with
      | Some (frame, offset) =>
          framesLoop fuel fullBuffer offset (frames ++ [frame])
      | None => Some (frames, offset)
      end
  end.

(** What the script does with one chunk [value]: append it to
    [fullBuffer], take out the complete frames, keep
    [fullBuffer.slice(offset)]. *)
Definition feedChunk (fuel : nat) (fullBuffer value : list Z)
  : option (list WireFrame * list Z) :=
  let newBuffer := fullBuffer ++ value in
  match framesLoop fuel newBuffer 0 [] with
  | Some (frames, offset) => Some (frames, JS.sliceFrom newBuffer offset)
  | None => None
  end.

(** The framer fed a sequence of chunks: frames in order of extraction and
    the bytes still buffered. *)
Fixpoint feedChunks (fuel : nat) (fullBuffer : list Z)
    (values : list (list Z)) (frames : list WireFrame)
  : option (list WireFrame * list Z) :=
  match values with
  | [] => Some (frames, fullBuffer)
  | value :: values =>
      match feedChunk fuel fullBuffer value with
      | Some (found, fullBuffer) =>
          feedChunks fuel fullBuffer values (frames ++ found)
      | None => None
      end
  end.

(** The [while (true)] loop of [main] around it: [values] are the chunks
    the reader delivers, [chunks] counts them, and the script stops
    reading after "Max chunks reached". *)
Fixpoint readLoop (fuel : nat) (fullBuffer : list Z)
    (values : list (list Z)) (chunks : Z) (frames : list WireFrame)
  : option (list WireFrame) :=
  match values with
  | [] => Some frames
  | value :: values =>
      let chunks := chunks + 1 in
      match feedChunk fuel fullBuffer value with
      | Some (found, fullBuffer) =>
          if chunks >? 50 then Some (frames ++ found)
          else readLoop fuel fullBuffer values chunks (frames ++ found)
      | None => None
      end
  end.

(** ** The frame header written by [scripts/fetch-models.ts] *)

(** [framedBody]: the flag byte, the length as four bytes, most
    significant first, and the body.  The script writes the flag 0; the
    flag is a parameter here so that trailer and error frames can be
    written too. *)
Definition framedBody (flag : Z) (requestBody : list Z) : list Z :=
  let len := JS.len requestBody in
  [ JS.toUint8 flag;
    JS.toUint8 (JS.and (JS.shr len 24) 255);
    JS.toUint8 (JS.and (JS.shr len 16) 255);
    JS.toUint8 (JS.and (JS.shr len 8) 255);
    JS.toUint8 (JS.and len 255) ] ++ requestBody.

(** A stream of frames on the wire. *)
Definition encodeFrames (frames : list WireFrame) : list Z :=
  List.concat (map (fun f => framedBody (flags f) (payload f)) frames).


(** The bytes of [data] from [offset] on. *)
Definition available (data : list Z) (offset : Z) : list Z :=
  skipn (Z.to_nat offset) data.

(** ** Messages written with the scripts' own encoders

    Used to state what [parseProtoFields] returns on well-formed input:
    a message is a sequence of varint fields (written by
    [encodeInt64Field]), length-delimited fields (written by
    [encodeMessageField]), fixed64 fields (written by
    [encodeDoubleField]) and fixed32 fields (a tag of wire type 5 and
    four bytes; the scripts have no encoder for these). *)

Inductive KnownField : Type :=
| KVarint (fieldNumber value : Z)
| KBytes (fieldNumber : Z) (data : list Z)
| KFixed64 (fieldNumber bits : Z)
| KFixed32 (fieldNumber : Z) (data : list Z).

Definition encodeKnown (k : KnownField) : list Z :=
  match k with
  | KVarint fieldNumber value => encodeInt64Field fieldNumber value
  | KBytes fieldNumber data => encodeMessageField fieldNumber data
  | KFixed64 fieldNumber bits =>
      ToolEncoding.encodeDoubleField fieldNumber bits
  | KFixed32 fieldNumber data =>
      JS.toUint8 (JS.or (JS.shl fieldNumber 3) 5) :: data
  end.

Definition encodeKnowns (ks : list KnownField) : list Z :=
  concatBytes (map encodeKnown ks).

(** The encoders store the tag in one byte, so the field number must fit a
    one-byte tag; a varint field holds an unsigned value; a fixed32 field
    has four bytes. *)
Definition knownOk (k : KnownField) : Prop :=
  match k with
  | KVarint fieldNumber value => 1 <= fieldNumber <= 15 /\ 0 <= value
  | KBytes fieldNumber _ => 1 <= fieldNumber <= 15
  | KFixed64 fieldNumber _ => 1 <= fieldNumber <= 15
  | KFixed32 fieldNumber data => 1 <= fieldNumber <= 15 /\ JS.len data = 4
  end.

(** The [ParsedField] expected for a field written at [offset]; for the
    fixed-width fields the script records the width as [length]. *)
Definition parsedAs (offset : Z) (k : KnownField) : ParsedField :=
  match k with
  | KVarint fieldNumber value =>
      mkField fieldNumber 0 (VVarint value) offset (JS.len (encodeKnown k))
  | KBytes fieldNumber data =>
      mkField fieldNumber 2 (VBytes data) offset (JS.len (encodeKnown k))
  | KFixed64 fieldNumber bits =>
      mkField fieldNumber 1 (VBytes (ToolEncoding.float64LE bits)) offset 8
  | KFixed32 fieldNumber data =>
      mkField fieldNumber 5 (VBytes data) offset 4
  end.

Fixpoint parsedFrom (offset : Z) (ks : list KnownField) : list ParsedField :=
  match ks with
  | [] => []
  | k :: ks =>
      parsedAs offset k :: parsedFrom (offset + JS.len (encodeKnown k)) ks
  end.

(** A tag whose wire type is none of 0, 1, 2, 5. *)
Definition unknownWireType (tag : Z) : Prop :=
  Z.land tag 7 <> 0 /\ Z.land tag 7 <> 1 /\ Z.land tag 7 <> 2
  /\ Z.land tag 7 <> 5.

(** A tail at which the loop of [parseProtoFields] stops without pushing
    anything more. *)
Definition stopsAt (tail : list Z) : Prop :=
  forall pre fuel fields,
    parseProtoFields_loop (S fuel) (pre ++ tail) (JS.len pre) fields
    = Some fields.


(** ** Message mapper, response direction

    The code that turns backend frames into events ([src/server.ts],
    [src/plugin/plugin.ts], [src/lib/api/agent-service.ts]) is not among
    the sources; what follows is written from the specification and from
    the documents under [docs/]. *)

(** [BackendEvent] of the data model; a tool invocation carries the tool
    name, the arguments and the call id. *)
Inductive BackendEvent : Type :=
| TextDelta (text : string)
| ToolInvocation (name arguments callId : string)
| Error (code : Z) (message : string)
| Done.

(** The two forms of a grep request. *)
Inductive GrepVariant : Type := ByPattern | ByGlob.

(** An exec request: its kind as named by the backend, the form of a grep
    request, the tool name of an MCP request, the arguments and the call
    id. *)
Record ExecRequest : Type := mkExec {
  execKind : string;
  grepBy : GrepVariant;
  mcpToolName : string;
  execArguments : string;
  execCallId : string
}.

Definition knownKinds : list string :=
  ["shell"; "read"; "write"; "ls"; "grep"; "mcp"]%string.

(** Modelled from the spec: the tool-name table of the message mapper,
    whose code is missing here ([src/server.ts], [src/plugin/plugin.ts]).
    Spec 4.3 and 8: shell to bash, read to read, write to write, ls to
    list, grep with a pattern to grep, grep with a glob to glob, mcp to
    the original tool name, any other kind to the sentinel "unknown". *)
Definition mapToolName (r : ExecRequest) : string :=
  if String.eqb (execKind r) "shell" then "bash"
  else if String.eqb (execKind r) "read" then "read"
  else if String.eqb (execKind r) "write" then "write"
  else if String.eqb (execKind r) "ls" then "list"
  else if String.eqb (execKind r) "grep" then
    match grepBy r with ByPattern => "grep" | ByGlob => "glob" end
  else if String.eqb (execKind r) "mcp" then mcpToolName r
  else "unknown".

(** Modelled from the spec: the [ToolInvocation] built from an exec
    request by the missing mapper; the arguments and the call id are
    handed on as received (the spec asks this of mcp requests and fixes no
    other translation). *)
Definition mapExecRequest (r : ExecRequest) : BackendEvent :=
  ToolInvocation (mapToolName r) (execArguments r) (execCallId r).








(** The texts put one after the other. *)
Definition concatText (texts : list string) : string :=
  fold_right String.append EmptyString texts.



(** ** Session policy *)





(** The field numbers and values of a field list. *)
Definition numbered (fields : list ParsedField) : list (Z * FieldValue) :=
  map (fun f => (pf_fieldNumber f, pf_value f)) fields.

(** The field number that [encodeProtobufValue] uses for each kind of
    value. *)
Definition valueFieldNumber (value : JsonValue) : Z :=
  match value with
  | JNull => 1
  | JNumber _ => 2
  | JString _ => 3
  | JBool _ => 4
  | JObject _ => 5
  | JArray _ => 6
  end.

(** A string field as the tool-encoding script writes it: nothing for the
    empty string. *)
Definition stringEntry (fieldNumber : Z) (value : string)
  : list (Z * FieldValue) :=
  match value with
  | EmptyString => []
  | _ => [(fieldNumber, VBytes (TextEncoder_encode value))]
  end.

(** The same as a message of known fields. *)
Definition stringKnown (fieldNumber : Z) (value : string)
  : list KnownField :=
  match value with
  | EmptyString => []
  | _ => [KBytes fieldNumber (TextEncoder_encode value)]
  end.

(** The payloads that [encodeProtobufValue] builds for a list
    ([listValue]), for one entry of an object ([mapEntry]) and for an
    object ([structValue]). *)
Definition listValue (items : list JsonValue) : list Z :=
  concatBytes
    (map (fun item =>
            ToolEncoding.encodeMessageField 1
              (ToolEncoding.encodeProtobufValue item)) items).

Definition mapEntry (entry : string * JsonValue) : list Z :=
  concatBytes
    [ ToolEncoding.encodeStringField 1 (fst entry);
      ToolEncoding.encodeMessageField 2
        (ToolEncoding.encodeProtobufValue (snd entry)) ].

Definition structValue (entries : list (string * JsonValue)) : list Z :=
  concatBytes
    (map (fun entry => ToolEncoding.encodeMessageField 1 (mapEntry entry))
       entries).

(** ** The data frames of [main]

    [new TextDecoder('utf-8', { fatal: true }).decode(bytes)]: the bytes
    must be well-formed UTF-8 (otherwise the call throws, [None] here),
    and a leading byte order mark is dropped. *)

Definition isContinuation (b : Z) : bool := (128 <=? b) && (b <=? 191).

Fixpoint utf8WellFormed (bytes : list Z) : bool :=
  match bytes with
  | [] => true
  | b0 :: rest =>
      if (0 <=? b0) && (b0 <=? 127) then utf8WellFormed rest
      else if (194 <=? b0) && (b0 <=? 223) then
        match rest with
        | b1 :: rest => isContinuation b1 && utf8WellFormed rest
        | _ => false
        end
      else if (224 <=? b0) && (b0 <=? 239) then
        match rest with
        | b1 :: b2 :: rest =>
            (if b0 =? 224 then (160 <=? b1) && (b1 <=? 191)
             else if b0 =? 237 then (128 <=? b1) && (b1 <=? 159)
             else isContinuation b1)
            && isContinuation b2 && utf8WellFormed rest
        | _ => false
        end
      else if (240 <=? b0) && (b0 <=? 244) then
        match rest with
        | b1 :: b2 :: b3 :: rest =>
            (if b0 =? 240 then (144 <=? b1) && (b1 <=? 191)
             else if b0 =? 244 then (128 <=? b1) && (b1 <=? 143)
             else isContinuation b1)
            && isContinuation b2 && isContinuation b3 && utf8WellFormed rest
        | _ => false
        end
      else false
  end.

(** The string that holds the given UTF-8 bytes. *)
Definition stringOfBytes (bytes : list Z) : string :=
  string_of_list_ascii (map (fun b => ascii_of_N (Z.to_N b)) bytes).

Definition TextDecoder_decode_fatal (bytes : list Z) : option string :=
  if utf8WellFormed bytes then
    match bytes with
    | 239 :: 187 :: 191 :: rest => Some (stringOfBytes rest)
    | _ => Some (stringOfBytes bytes)
    end
  else None.

(** What [main] keeps of the frames it reads: the three flags of its
    summary and the texts handed to [process.stdout.write]; the lines
    written with [console.log] are left out. *)
Record Summary : Type := mkSummary {
  gotInteractionQuery : bool;
  gotExecServerMessage : bool;
  gotInteractionUpdate : bool;
  written : list string
}.

(** The fields of a message; [parseProtoFields] always returns a list. *)
Definition fieldsOf (data : list Z) : list ParsedField :=
  match parseProtoFields data with
  | Some fields => fields
  | None => []
  end.

(** [field.wireType === 2 && field.value instanceof Uint8Array] with the
    given field number; the bytes of the field if so. *)
Definition bytesField (fieldNumber : Z) (field : ParsedField)
  : option (list Z) :=
  if (pf_fieldNumber field =? fieldNumber) && (pf_wireType field =? 2) then
    match pf_value field with
    | VBytes bytes => Some bytes
    | VVarint _ => None
    end
  else None.

(** The innermost loop: a [text_delta] that decodes to a non-empty text is
    written; a decoding error is caught and ignored. *)
Definition writeTextDelta (out : list string) (mf : ParsedField)
  : list string :=
  match bytesField 1 mf with
  | Some bytes =>
      match TextDecoder_decode_fatal bytes with
      | Some text =>
          match text with
          | EmptyString => out
          | _ => out ++ [text]
          end
      | None => out
      end
  | None => out
  end.

Definition writeMessage (out : list string) (uf : ParsedField)
  : list string :=
  match bytesField 1 uf with
  | Some bytes => fold_left writeTextDelta (fieldsOf bytes) out
  | None => out
  end.

(** The body of [for (const field of serverMsgFields)]. *)
Definition processField (s : Summary) (field : ParsedField) : Summary :=
  if pf_fieldNumber field =? 7 then
    mkSummary true (gotExecServerMessage s) (gotInteractionUpdate s)
      (written s)
  else if pf_fieldNumber field =? 2 then
    mkSummary (gotInteractionQuery s) true (gotInteractionUpdate s)
      (written s)
  else if pf_fieldNumber field =? 1 then
    let out :=
      match pf_wireType field =? 2, pf_value field with
      | true, VBytes bytes => fold_left writeMessage (fieldsOf bytes) (written s)
      | _, _ => written s
      end in
    mkSummary (gotInteractionQuery s) (gotExecServerMessage s) true out
  else s.

(** What the loop does with one frame: a trailer frame is only printed, a
    data frame is decoded as an [AgentServerMessage]. *)
Definition handleFrame (s : Summary) (frame : WireFrame) : Summary :=
  if isTrailer frame then s
  else fold_left processField (fieldsOf (payload frame)) s.

(** An [AgentServerMessage] that carries one text delta, written with the
    encoders of the script: interaction update (1), message (1), text
    delta (1). *)
Definition textDeltaMessage (text : string) : list Z :=
  encodeMessageField 1 (encodeMessageField 1 (encodeStringField 1 text)).

(** ** The model list of [scripts/fetch-models.ts] *)

Module FetchModels.

(** [a >>> s] on Numbers. *)
Definition ushr (a s : Z) : Z := Z.shiftr (a mod 2 ^ 32) (s mod 32).

(** [decodeVarint] of this script returns [{ value, newOffset }] and
    works on Numbers.  Below the array ([pos < 0]) the byte read is
    [undefined], which counts as 0 in [&]: one turn, then [break]. *)
Fixpoint decodeVarint_loop (bytes : list Z) (value shift pos : Z) : Z * Z :=
  match bytes with
  | [] => (value, pos)
  | byte :: rest =>
      let value := JS.or value (JS.shl (JS.and byte 127) shift) in
      let pos := pos + 1 in
      if JS.and byte 128 =? 0 then (value, pos)
      else decodeVarint_loop rest value (shift + 7) pos
  end.

Definition decodeVarint (bytes : list Z) (offset : Z) : Z * Z :=
  if offset <? 0 then (0, offset + 1)
  else decodeVarint_loop (skipn (Z.to_nat offset) bytes) 0 0 offset.

Record Model : Type := mkModel {
  modelId : string;
  displayModelId : string;
  displayName : string
}.

(** [if (modelId || displayModelId)]. *)
Definition nonEmpty (s : string) : bool :=
  match s with EmptyString => false | _ => true end.

(** [if (mFieldNumber === 1) modelId = str; if (mFieldNumber === 3)
    displayModelId = str; if (mFieldNumber === 4) displayName = str]. *)
Definition assign (mFieldNumber : Z) (str : string) (m : Model) : Model :=
  let m :=
    if mFieldNumber =? 1
    then mkModel str (displayModelId m) (displayName m) else m in
  let m :=
    if mFieldNumber =? 3
    then mkModel (modelId m) str (displayName m) else m in
  if mFieldNumber =? 4
  then mkModel (modelId m) (displayModelId m) str else m.

(** The test before [models.push]. *)
Definition kept (m : Model) : bool :=
  nonEmpty (modelId m) || nonEmpty (displayModelId m).

Section Decoder.

(** [new TextDecoder().decode(bytes)], which never throws. *)
Variable TextDecoder_decode : list Z -> string.

(** [decodeString] returns [{ value, newOffset }]. *)
Definition decodeString (bytes : list Z) (offset : Z) : string * Z :=
  let '(length, dataStart) := decodeVarint bytes offset in
  let value :=
    TextDecoder_decode (JS.slice bytes dataStart (dataStart + length)) in
  (value, dataStart + length).

(** One turn of [while (modelPos < modelEnd)]. *)
Definition modelStep (messageData : list Z) (modelPos : Z) (m : Model)
  : Z * Model :=
  let '(mTag, mAfterTag) := decodeVarint messageData modelPos in
  let mFieldNumber := ushr mTag 3 in
  let mWireType := JS.and mTag 7 in
  let modelPos := mAfterTag in
  if mWireType =? 2 then
    let '(str, newOffset) := decodeString messageData modelPos in
    let modelPos := newOffset in
    (modelPos, assign mFieldNumber str m)
  else if mWireType =? 0 then
    let '(_, newOffset) := decodeVarint messageData modelPos in
    (newOffset, m)
  else (modelPos, m).

(** "Parse model fields".  [None]: the loop has not ended within
    [fuel] turns. *)
Fixpoint modelLoop (fuel : nat) (messageData : list Z)
    (modelPos modelEnd : Z) (m : Model) : option Model :=
  match fuel with
  | O => None
  | S fuel =>
      if modelPos <? modelEnd then
        let '(modelPos, m) := modelStep messageData modelPos m in
        modelLoop fuel messageData modelPos modelEnd m
      else Some m
  end.

(** The loop over the fields of the response. *)
Fixpoint parseModels (fuel : nat) (messageData : list Z) (pos : Z)
    (models : list Model) : option (list Model) :=
  match fuel with
  | O => None
  | S fuel' =>
      if pos <? JS.len messageData then
        let '(tag, afterTag) := decodeVarint messageData pos in
        let fieldNumber := ushr tag 3 in
        let wireType := JS.and tag 7 in
        let pos := afterTag in
        if (fieldNumber =? 1) && (wireType =? 2) then
          let '(length, dataStart) := decodeVarint messageData pos in
          let modelEnd := dataStart + length in
          match modelLoop fuel messageData dataStart modelEnd
                  (mkModel "" "" "") with
          | Some m =>
              let models := if kept m then models ++ [m] else models in
              parseModels fuel' messageData modelEnd models
          | None => None
          end
        else if wireType =? 2 then
          let '(length, newOffset) := decodeVarint messageData pos in
          parseModels fuel' messageData (newOffset + length) models
        else if wireType =? 0 then
          let '(_, newOffset) := decodeVarint messageData pos in
          parseModels fuel' messageData newOffset models
        else parseModels fuel' messageData pos models
      else Some models
  end.

(** The models of a response: "Skip 5-byte frame header and parse". *)
Definition modelsOf (fuel : nat) (bytes : list Z) : option (list Model) :=
  parseModels fuel (JS.sliceFrom bytes 5) 0 [].

(** The strings of a model as the script decodes them. *)
Definition decoded (m : Model) : Model :=
  mkModel (TextDecoder_decode (TextEncoder_encode (modelId m)))
    (TextDecoder_decode (TextEncoder_encode (displayModelId m)))
    (TextDecoder_decode (TextEncoder_encode (displayName m))).

End Decoder.

(** A well-formed response: each model is an entry (field 1) that holds
    the model id (1), the display id (3) and the display name (4) as
    strings. *)
Definition encodeModel (m : Model) : list Z :=
  concatBytes
    [ encodeStringField 1 (modelId m);
      encodeStringField 3 (displayModelId m);
      encodeStringField 4 (displayName m) ].

Definition encodeModelList (ms : list Model) : list Z :=
  concatBytes (map (fun m => encodeMessageField 1 (encodeModel m)) ms).

End FetchModels.

(** ** The authentication demo script

    A JavaScript string is a [string] here, one character for each code
    unit; the tokens the script handles are ASCII. *)

Module AuthDemo.

(** [if (value)] on a string. *)
Definition nonEmpty (s : string) : bool :=
  match s with EmptyString => false | _ => true end.

(** [value || undefined] and [if (value)] on a string that may be [null]
    or [undefined]: the string only if it is there and not empty. *)
Definition truthy (value : option string) : option string :=
  match value with
  | Some s => if nonEmpty s then Some s else None
  | None => None
  end.

(** [s.substring(start, end)]: both arguments are clamped to the string
    and swapped if out of order. *)
Definition substring (s : string) (start stop : Z) : string :=
  let n := Z.of_nat (String.length s) in
  let a := Z.max 0 (Z.min start n) in
  let b := Z.max 0 (Z.min stop n) in
  let from := Z.min a b in
  let to := Z.max a b in
  String.substring (Z.to_nat from) (Z.to_nat (to - from)) s.

(** "Mask sensitive token data for display". *)
Definition maskToken (token : option string) : string :=
  match truthy token with
  | None => "(not set)"
  | Some token =>
      let length := Z.of_nat (String.length token) in
      if length <? 20 then "***"
      else
        String.append (substring token 0 10)
          (String.append "..." (substring token (length - 10) length))
  end.

(** The content of the auth file once parsed: any of the three entries
    may be missing. *)
Record AuthData : Type := mkAuth {
  accessToken : option string;
  refreshToken : option string;
  apiKey : option string
}.

(** A [FileCredentialManager] together with the file it reads and writes:
    [file] is [None] when the file is missing or cannot be parsed
    ([readAuthData] returns [null] in both cases); a cached value is
    [None] when the field is [null].  Reading, writing and deleting the
    file are taken to succeed. *)
Record Manager : Type := mkManager {
  file : option AuthData;
  cachedAccessToken : option string;
  cachedRefreshToken : option string;
  cachedApiKey : option string
}.

(** [authData?.field]. *)
Definition field (get : AuthData -> option string) (data : option AuthData)
  : option string :=
  match data with Some d => get d | None => None end.

Definition setAuthentication (access refresh : string)
    (key : option string) (m : Manager) : Manager :=
  mkManager (Some (mkAuth (Some access) (Some refresh) key))
    (Some access) (Some refresh) key.

Definition getAccessToken (m : Manager) : option string * Manager :=
  match truthy (cachedAccessToken m) with
  | Some token => (Some token, m)
  | None =>
      let authData := file m in
      match truthy (field accessToken authData) with
      | Some token =>
          (Some token,
           mkManager (file m) (Some token) (field refreshToken authData)
             (cachedApiKey m))
      | None => (None, m)
      end
  end.

Definition getRefreshToken (m : Manager) : option string * Manager :=
  match truthy (cachedRefreshToken m) with
  | Some token => (Some token, m)
  | None =>
      let authData := file m in
      match truthy (field refreshToken authData) with
      | Some token =>
          (Some token,
           mkManager (file m) (field accessToken authData) (Some token)
             (cachedApiKey m))
      | None => (None, m)
      end
  end.

Definition getApiKey (m : Manager) : option string * Manager :=
  match truthy (cachedApiKey m) with
  | Some key => (Some key, m)
  | None =>
      match truthy (field apiKey (file m)) with
      | Some key =>
          (Some key,
           mkManager (file m) (cachedAccessToken m) (cachedRefreshToken m)
             (Some key))
      | None => (None, m)
      end
  end.

Definition getAllCredentials (m : Manager) : AuthData * Manager :=
  match cachedAccessToken m, cachedRefreshToken m with
  | Some _, Some _ =>
      (mkAuth (truthy (cachedAccessToken m)) (truthy (cachedRefreshToken m))
         (truthy (cachedApiKey m)), m)
  | _, _ =>
      match file m with
      | Some authData =>
          (authData,
           mkManager (file m) (truthy (accessToken authData))
             (truthy (refreshToken authData)) (truthy (apiKey authData)))
      | None => (mkAuth None None None, m)
      end
  end.

Definition clearAuthentication (m : Manager) : Manager :=
  mkManager None None None None.

(** [getValidAccessToken]; [isTokenExpiringSoon] reads the clock and the
    payload of the token and is a parameter here.  The messages it logs
    are left out. *)
Definition getValidAccessToken (isTokenExpiringSoon : string -> bool)
    (m : Manager) : option string * Manager :=
  let '(currentToken, m) := getAccessToken m in
  match currentToken with
  | None => (None, m)
  | Some token =>
      if negb (isTokenExpiringSoon token) then (Some token, m)
      else
        let '(_, m) := getApiKey m in
        (Some token, m)
  end.

(** The headers of a request, a [Map] from names to values. *)
Definition Headers : Type := list (string * string).

Fixpoint headerGet (headers : Headers) (name : string) : option string :=
  match headers with
  | [] => None
  | (n, v) :: rest => if String.eqb n name then Some v else headerGet rest name
  end.

Fixpoint headerSet (headers : Headers) (name value : string) : Headers :=
  match headers with
  | [] => [(name, value)]
  | (n, v) :: rest =>
      if String.eqb n name then (n, value) :: rest
      else (n, v) :: headerSet rest name value
  end.

(** The request that [createAuthInterceptor] hands to [next]; [uuid] is
    what [crypto.randomUUID()] returns. *)
Definition intercept (isTokenExpiringSoon : string -> bool) (uuid : string)
    (m : Manager) (headers : Headers) : Headers * Manager :=
  let '(token, m) := getValidAccessToken isTokenExpiringSoon m in
  let headers :=
    match token with
    | Some token =>
        headerSet headers "authorization" (String.append "Bearer " token)
    | None => headers
    end in
  let headers := headerSet headers "x-ghost-mode" "true" in
  let headers := headerSet headers "x-cursor-client-version" "cli-demo" in
  let headers := headerSet headers "x-cursor-client-type" "cli" in
  let headers :=
    match truthy (headerGet headers "x-request-id") with
    | None => headerSet headers "x-request-id" uuid
    | Some _ => headers
    end in
  (headers, m).

(** A chunk of the stream that [collectStreamText] reads. *)
Record Chunk : Type := mkChunk {
  chunkType : string;
  chunkContent : option string;
  chunkError : option string
}.

(** [collectStreamText] over the chunks the stream delivers: the text
    collected ([inr]), or the message of the [Error] thrown ([inl]). *)
Fixpoint collectStreamText (chunks : list Chunk) (result : string)
  : string + string :=
  match chunks with
  | [] => inr result
  | chunk :: chunks =>
      let result :=
        if String.eqb (chunkType chunk) "text" then
          match truthy (chunkContent chunk) with
          | Some content => String.append result content
          | None => result
          end
        else result in
      if String.eqb (chunkType chunk) "error" then
        inl (match chunkError chunk with
             | Some message => message
             | None => "Unknown streaming error"%string
             end)
      else collectStreamText chunks result
  end.

(** The text that one chunk adds to the result. *)
Definition chunkText (chunk : Chunk) : string :=
  if String.eqb (chunkType chunk) "text" then
    match truthy (chunkContent chunk) with
    | Some content => content
    | None => EmptyString
    end
  else EmptyString.

Definition isError (chunk : Chunk) : bool :=
  String.eqb (chunkType chunk) "error".

End AuthDemo.

(** * Properties *)

Example encodeVarint_300 : encodeVarint 300 = [172; 2].
Proof. reflexivity. Qed.

Example decodeVarint_300 : decodeVarint [172; 2] 0 = (300, 2).
Proof. reflexivity. Qed.

(** ** Facts about the JavaScript primitives *)

Lemma toInt32_small (z : Z) : - 2 ^ 31 <= z < 2 ^ 31 -> JS.toInt32 z = z.
Proof.
  intros H. unfold JS.toInt32.
  rewrite Z.mod_small by lia. lia.
Qed.

Lemma land_127_range (z : Z) : 0 <= Z.land z 127 < 128.
Proof.
  change 127 with (Z.ones 7). rewrite Z.land_ones by lia.
  apply Z.mod_pos_bound. lia.
Qed.

Lemma and_127_range (z : Z) : 0 <= JS.and z 127 < 128.
Proof.
  unfold JS.and. rewrite (toInt32_small 127) by lia. apply land_127_range.
Qed.

Lemma and_small (a b : Z) :
  0 <= a < 2 ^ 31 -> 0 <= b < 2 ^ 31 -> JS.and a b = Z.land a b.
Proof.
  intros Ha Hb. unfold JS.and. rewrite !toInt32_small by lia. reflexivity.
Qed.

Lemma or_small (a b : Z) :
  0 <= a < 2 ^ 31 -> 0 <= b < 2 ^ 31 -> JS.or a b = Z.lor a b.
Proof.
  intros Ha Hb. unfold JS.or. rewrite !toInt32_small by lia. reflexivity.
Qed.

(** Low bits and high bits of a number put together again. *)
Lemma lor_low_high (v k : Z) :
  0 <= k -> Z.lor (Z.land v (Z.ones k)) (Z.shiftl (Z.shiftr v k) k) = v.
Proof.
  intros Hk. rewrite <- Z.ldiff_ones_r by lia.
  rewrite Z.lor_comm. apply Z.lor_ldiff_and.
Qed.

Lemma land_7bit_128 (x : Z) : 0 <= x < 128 -> Z.land x 128 = 0.
Proof.
  intros Hx. apply Z.bits_inj'. intros n Hn.
  rewrite Z.land_spec, Z.bits_0.
  destruct (Z.ltb_spec n 7).
  - change 128 with (Z.shiftl 1 7).
    rewrite (Z.shiftl_spec_low 1) by lia. apply andb_false_r.
  - destruct (Z.eq_dec x 0) as [-> | Hne]; [now rewrite Z.bits_0 |].
    rewrite (Z.bits_above_log2 x n); [reflexivity | lia |].
    apply Z.lt_le_trans with 7; [| lia].
    apply Z.log2_lt_pow2; lia.
Qed.

Lemma lor_128_bits (x : Z) :
  0 <= x < 128 ->
  Z.land (Z.lor x 128) 127 = x /\ Z.land (Z.lor x 128) 128 = 128
  /\ 128 <= Z.lor x 128 < 256.
Proof.
  intros Hx. pose proof (land_7bit_128 x Hx) as H0.
  repeat split.
  - rewrite Z.land_lor_distr_l. change (Z.land 128 127) with 0.
    rewrite Z.lor_0_r. change 127 with (Z.ones 7).
    rewrite Z.land_ones by lia. apply Z.mod_small. lia.
  - rewrite Z.land_lor_distr_l, H0. reflexivity.
  - rewrite <- Z.lxor_lor, <- Z.add_nocarry_lxor by assumption. lia.
  - rewrite <- Z.lxor_lor, <- Z.add_nocarry_lxor by assumption. lia.
Qed.
Lemma encodeVarint_big (v : Z) :
  127 < v ->
  encodeVarint v = Z.lor (Z.land v 127) 128 :: encodeVarint (Z.shiftr v 7).
Proof.
  intros Hv. unfold encodeVarint. rewrite encodeVarint_bytes_equation_1.
  destruct (Z_gt_dec v 127) as [Hp | Hn]; [| lia].
  simpl. f_equal.
  pose proof (land_127_range v) as Hr.
  rewrite or_small by lia.
  destruct (lor_128_bits _ Hr) as (_ & _ & Hb).
  unfold JS.toUint8. apply Z.mod_small. lia.
Qed.

Lemma encodeVarint_small (v : Z) :
  v <= 127 -> encodeVarint v = [JS.toUint8 v].
Proof.
  intros Hv. unfold encodeVarint. rewrite encodeVarint_bytes_equation_1.
  destruct (Z_gt_dec v 127) as [Hn | Hp]; [lia |]. reflexivity.
Qed.

Lemma len_cons {A} (x : A) (l : list A) : JS.len (x :: l) = 1 + JS.len l.
Proof. unfold JS.len. simpl List.length. lia. Qed.

Lemma len_app {A} (l1 l2 : list A) : JS.len (l1 ++ l2) = JS.len l1 + JS.len l2.
Proof. unfold JS.len. rewrite length_app. lia. Qed.

Lemma len_nonneg {A} (l : list A) : 0 <= JS.len l.
Proof. unfold JS.len. lia. Qed.

Lemma len_nil {A} : JS.len (@nil A) = 0.
Proof. reflexivity. Qed.

(** ** Varint round trip *)

Lemma shiftl_groups (v shift : Z) :
  0 <= shift ->
  Z.lor (Z.shiftl (Z.land v 127) shift) (Z.shiftl (Z.shiftr v 7) (shift + 7))
  = Z.shiftl v shift.
Proof.
  intros Hs. rewrite (Z.add_comm shift 7), <- Z.shiftl_shiftl by lia.
  rewrite <- Z.shiftl_lor. f_equal.
  change 127 with (Z.ones 7). apply lor_low_high. lia.
Qed.

Lemma decodeVarint_loop_encode (v : Z) :
  0 <= v ->
  forall rest value shift n, 0 <= shift ->
    decodeVarint_loop (encodeVarint v ++ rest) value shift n
    = (Z.lor value (Z.shiftl v shift), n + JS.len (encodeVarint v)).
Proof.
  intros Hv. generalize Hv. pattern v. apply Z_lt_induction; [| exact Hv].
  clear v Hv. intros v IH Hv rest value shift n Hs.
  destruct (Z_gt_dec v 127) as [Hbig | Hsmall].
  - rewrite encodeVarint_big by lia.
    pose proof (land_127_range v) as Hr.
    destruct (lor_128_bits _ Hr) as (H127 & H128 & Hb).
    cbn [app decodeVarint_loop].
    rewrite !and_small by lia. rewrite H127, H128.
    change (128 =? 0) with false. cbv iota.
    assert (Hlt : 0 <= Z.shiftr v 7 < v).
    { rewrite Z.shiftr_div_pow2 by lia. split.
      - apply Z.div_pos; lia.
      - apply Z.div_lt; lia. }
    rewrite IH by lia.
    rewrite <- Z.lor_assoc, shiftl_groups by lia.
    rewrite len_cons. f_equal; lia.
  - rewrite encodeVarint_small by lia.
    unfold JS.toUint8. rewrite Z.mod_small by lia.
    cbn [app decodeVarint_loop].
    rewrite !and_small by lia.
    rewrite land_7bit_128 by lia. change (0 =? 0) with true. cbv iota.
    change 127 with (Z.ones 7). rewrite Z.land_ones by lia.
    rewrite Z.mod_small by lia.
    rewrite len_cons, len_nil. f_equal; lia.
Qed.

Lemma skipn_len_app {A} (pre rest : list A) :
  skipn (Z.to_nat (JS.len pre)) (pre ++ rest) = rest.
Proof.
  unfold JS.len. rewrite Nat2Z.id.
  rewrite skipn_app, skipn_all, Nat.sub_diag. reflexivity.
Qed.

(** A varint written anywhere in a buffer is read back from its offset. *)
Lemma decodeVarint_encode_at (pre rest : list Z) (v : Z) :
  0 <= v ->
  decodeVarint (pre ++ encodeVarint v ++ rest) (JS.len pre)
  = (v, JS.len (encodeVarint v)).
Proof.
  intros Hv. unfold decodeVarint.
  pose proof (len_nonneg pre) as Hp.
  destruct (Z.ltb_spec (JS.len pre) 0); [lia |].
  rewrite skipn_len_app, decodeVarint_loop_encode by lia.
  rewrite Z.shiftl_0_r. reflexivity.
Qed.

(** C4. Varint round trip: for every unsigned integer [v] (a BigInt
    [v >= 0]), [decodeVarint(encodeVarint(v), 0)] returns [v] as the value
    and the length of the encoding as [bytesRead]. *)
Theorem varint_roundtrip (v : Z) :
  0 <= v ->
  decodeVarint (encodeVarint v) 0 = (v, JS.len (encodeVarint v)).
Proof.
  intros Hv.
  pose proof (decodeVarint_encode_at [] [] v Hv) as H.
  cbn [app] in H. rewrite app_nil_r in H. exact H.
Qed.

Lemma varint_roundtrip_witness :
  0 <= 300 /\ decodeVarint (encodeVarint 300) 0 = (300, 2).
Proof.
  split; [lia |]. exact (varint_roundtrip 300 ltac:(lia)).
Defined.

(** ** [decodeVarint] on truncated input *)

(** The loop reads at least one byte when there is one, and never more
    than there are. *)
Lemma decodeVarint_loop_bytesRead (bytes : list Z) :
  forall value shift n,
    n <= snd (decodeVarint_loop bytes value shift n) <= n + JS.len bytes
    /\ (bytes <> [] -> n + 1 <= snd (decodeVarint_loop bytes value shift n)).
Proof.
  induction bytes as [| byte rest IH]; intros value shift n.
  - cbn -[JS.len]. rewrite len_nil. split; [lia | congruence].
  - cbn [decodeVarint_loop]. rewrite len_cons.
    pose proof (len_nonneg rest).
    destruct (JS.and byte 128 =? 0).
    + cbn [snd]. split; [lia | intros _; lia].
    + specialize (IH (Z.lor value (Z.shiftl (JS.and byte 127) shift))
                     (shift + 7) (n + 1)).
      destruct IH as [IH _]. split; [lia | intros _; lia].
Qed.

Lemma decodeVarint_loop_nonneg (bytes : list Z) :
  forall value shift n,
    0 <= value -> 0 <= fst (decodeVarint_loop bytes value shift n).
Proof.
  induction bytes as [| byte rest IH]; intros value shift n Hv.
  - exact Hv.
  - cbn [decodeVarint_loop].
    assert (0 <= Z.lor value (Z.shiftl (JS.and byte 127) shift)).
    { apply Z.lor_nonneg. split; [assumption |].
      apply Z.shiftl_nonneg. apply and_127_range. }
    destruct (JS.and byte 128 =? 0); [assumption |]. now apply IH.
Qed.

Lemma decodeVarint_loop_truncated (bytes : list Z) :
  allContinue bytes ->
  forall value shift n,
    decodeVarint_loop bytes value shift n
    = (accumulated bytes value shift, n + JS.len bytes).
Proof.
  induction 1 as [| byte rest Hb _ IH]; intros value shift n.
  - cbn -[JS.len]. rewrite len_nil. f_equal; lia.
  - cbn [decodeVarint_loop accumulated].
    destruct (Z.eqb_spec (JS.and byte 128) 0); [contradiction |].
    rewrite IH, len_cons. f_equal; lia.
Qed.

Lemma decodeVarint32_loop_bytesRead (bytes : list Z) :
  forall value shift n,
    n <= snd (ToolEncoding.decodeVarint_loop bytes value shift n)
      <= n + JS.len bytes.
Proof.
  induction bytes as [| byte rest IH]; intros value shift n.
  - cbn -[JS.len]. rewrite len_nil. lia.
  - cbn [ToolEncoding.decodeVarint_loop]. rewrite len_cons.
    pose proof (len_nonneg rest).
    destruct (JS.and byte 128 =? 0).
    + cbn [snd]. lia.
    + specialize (IH (JS.or value (JS.shl (JS.and byte 127) shift))
                     (shift + 7) (n + 1)). lia.
Qed.

Lemma decodeVarint32_loop_truncated (bytes : list Z) :
  allContinue bytes ->
  forall value shift n,
    ToolEncoding.decodeVarint_loop bytes value shift n
    = (accumulated32 bytes value shift, n + JS.len bytes).
Proof.
  induction 1 as [| byte rest Hb _ IH]; intros value shift n.
  - cbn -[JS.len]. rewrite len_nil. f_equal; lia.
  - cbn [ToolEncoding.decodeVarint_loop accumulated32].
    destruct (Z.eqb_spec (JS.and byte 128) 0); [contradiction |].
    rewrite IH, len_cons. f_equal; lia.
Qed.

Lemma len_skipn {A} (l : list A) (k : Z) :
  0 <= k <= JS.len l -> JS.len (skipn (Z.to_nat k) l) = JS.len l - k.
Proof.
  unfold JS.len. intros Hk. rewrite length_skipn. lia.
Qed.

(** C10. [decodeVarint] is a total function with no error result, in
    both scripts: for every byte array and every offset within it,
    [bytesRead] is at most the number of bytes available; and when every
    available byte has its continuation bit 0x80 set, so that the buffer
    ends inside the varint, it returns the value accumulated from those
    bytes with [bytesRead] equal to their number: the truncation is not
    signalled. *)
Theorem decodeVarint_accepts_truncation (data : list Z) (offset : Z) :
  0 <= offset <= JS.len data ->
  (0 <= snd (decodeVarint data offset) <= JS.len data - offset
   /\ 0 <= snd (ToolEncoding.decodeVarint data offset)
        <= JS.len data - offset)
  /\ (allContinue (available data offset) ->
      decodeVarint data offset
      = (accumulated (available data offset) 0 0, JS.len data - offset)
      /\ ToolEncoding.decodeVarint data offset
         = (accumulated32 (available data offset) 0 0,
            JS.len data - offset)).
Proof.
  intros Hoff. unfold decodeVarint, ToolEncoding.decodeVarint, available.
  destruct (Z.ltb_spec offset 0); [lia |].
  pose proof (len_skipn data offset Hoff) as Hlen.
  split; [split |].
  - pose proof (decodeVarint_loop_bytesRead
                  (skipn (Z.to_nat offset) data) 0 0 0) as [Hb _]. lia.
  - pose proof (decodeVarint32_loop_bytesRead
                  (skipn (Z.to_nat offset) data) 0 0 0) as Hb. lia.
  - intros Hall.
    rewrite decodeVarint_loop_truncated, decodeVarint32_loop_truncated
      by assumption.
    rewrite Hlen. split; reflexivity.
Qed.

Lemma decodeVarint_accepts_truncation_witness :
  decodeVarint [8; 255; 255] 1 = (16383, 2)
  /\ ToolEncoding.decodeVarint [8; 255; 255] 1 = (16383, 2).
Proof.
  assert (Hoff : 0 <= 1 <= JS.len [8; 255; 255]) by (cbv; split; discriminate).
  assert (Hall : allContinue (available [8; 255; 255] 1)).
  { repeat constructor; cbv; discriminate. }
  exact (proj2 (decodeVarint_accepts_truncation [8; 255; 255] 1 Hoff) Hall).
Defined.

(** ** [parseProtoFields] always returns *)

Lemma decodeVarint_nonneg (data : list Z) (offset : Z) :
  0 <= fst (decodeVarint data offset) /\ 0 <= snd (decodeVarint data offset).
Proof.
  unfold decodeVarint. destruct (offset <? 0); [cbn; lia |].
  split.
  - apply decodeVarint_loop_nonneg. lia.
  - pose proof (decodeVarint_loop_bytesRead
                  (skipn (Z.to_nat offset) data) 0 0 0) as [Hb _]. lia.
Qed.

Lemma decodeVarint_reads_one (data : list Z) (offset : Z) :
  0 <= offset < JS.len data -> 1 <= snd (decodeVarint data offset).
Proof.
  intros Hoff. unfold decodeVarint.
  destruct (Z.ltb_spec offset 0); [lia |].
  pose proof (decodeVarint_loop_bytesRead
                (skipn (Z.to_nat offset) data) 0 0 0) as [_ Hb].
  assert (Hne : skipn (Z.to_nat offset) data <> []).
  { intros Hnil. pose proof (len_skipn data offset ltac:(lia)) as Hl.
    rewrite Hnil, len_nil in Hl. lia. }
  specialize (Hb Hne). lia.
Qed.

(** Every turn of the loop moves the offset forward. *)
Lemma parseField_advances (data : list Z) (offset : Z)
    (field : ParsedField) (offset' : Z) :
  0 <= offset < JS.len data ->
  parseField data offset = Some (field, offset') ->
  offset < offset'.
Proof.
  intros Hoff. unfold parseField.
  pose proof (decodeVarint_reads_one data offset Hoff) as Htag.
  set (tagInfo := decodeVarint data offset) in *.
  pose proof (decodeVarint_nonneg data (offset + snd tagInfo)) as [Hv Hn].
  destruct (Z.land (fst tagInfo) 7 =? 2).
  { intros [= _ <-]. lia. }
  destruct (Z.land (fst tagInfo) 7 =? 0).
  { intros [= _ <-]. lia. }
  destruct (Z.land (fst tagInfo) 7 =? 1).
  { intros [= _ <-]. lia. }
  destruct (Z.land (fst tagInfo) 7 =? 5).
  { intros [= _ <-]. lia. }
  discriminate.
Qed.

Lemma parseProtoFields_loop_total (fuel : nat) :
  forall data offset fields,
    0 <= offset -> (0 < fuel)%nat -> JS.len data - offset < Z.of_nat fuel ->
    exists result, parseProtoFields_loop fuel data offset fields = Some result.
Proof.
  induction fuel as [| fuel IH]; intros data offset fields Hoff Hpos Hfuel.
  - lia.
  - cbn [parseProtoFields_loop].
    destruct (Z.ltb_spec offset (JS.len data)) as [Hlt | Hge];
      [| eexists; reflexivity].
    destruct (parseField data offset) as [[field offset'] |] eqn:Hstep;
      [| eexists; reflexivity].
    pose proof (parseField_advances data offset field offset'
                  ltac:(lia) Hstep).
    apply IH; lia.
Qed.

Lemma parseProtoFields_total (data : list Z) :
  exists fields, parseProtoFields data = Some fields.
Proof.
  unfold parseProtoFields. apply parseProtoFields_loop_total.
  - lia.
  - lia.
  - unfold JS.len. lia.
Qed.

(** ** [parseProtoFields] on messages written by the encoders *)

Lemma tagByte_spec (fieldNumber wt : Z) :
  1 <= fieldNumber <= 15 -> wt = 0 \/ wt = 2 \/ wt = 1 \/ wt = 5 ->
  let t := JS.toUint8 (JS.or (JS.shl fieldNumber 3) wt) in
  encodeVarint t = [t] /\ 0 <= t /\ Z.shiftr t 3 = fieldNumber
  /\ Z.land t 7 = wt.
Proof.
  intros Hf Hwt.
  assert (Hcases : fieldNumber = 1 \/ fieldNumber = 2 \/ fieldNumber = 3
                   \/ fieldNumber = 4 \/ fieldNumber = 5 \/ fieldNumber = 6
                   \/ fieldNumber = 7 \/ fieldNumber = 8 \/ fieldNumber = 9
                   \/ fieldNumber = 10 \/ fieldNumber = 11
                   \/ fieldNumber = 12 \/ fieldNumber = 13
                   \/ fieldNumber = 14 \/ fieldNumber = 15) by lia.
  destruct Hwt as [-> | [-> | [-> | ->]]];
    repeat (destruct Hcases as [-> | Hcases];
            [repeat split; try reflexivity; discriminate |]);
    subst; repeat split; try reflexivity; discriminate.
Qed.

Lemma relIndex_inside (n i : Z) : 0 <= i <= n -> JS.relIndex n i = i.
Proof.
  intros Hi. unfold JS.relIndex.
  destruct (Z.ltb_spec i 0); lia.
Qed.

(** A slice that lies inside the array. *)
Lemma slice_middle {A} (a d b : list A) :
  JS.slice (a ++ d ++ b) (JS.len a) (JS.len a + JS.len d) = d.
Proof.
  unfold JS.slice.
  pose proof (len_nonneg a). pose proof (len_nonneg d).
  pose proof (len_nonneg b).
  rewrite !relIndex_inside by (rewrite !len_app; lia).
  rewrite skipn_len_app.
  replace (JS.len a + JS.len d - JS.len a) with (JS.len d) by lia.
  unfold JS.len. rewrite Nat2Z.id.
  rewrite firstn_app, firstn_all, Nat.sub_diag. cbn. apply app_nil_r.
Qed.

Lemma slice_fixed {A} (a d b : list A) (n : Z) :
  JS.len d = n -> JS.slice (a ++ d ++ b) (JS.len a) (JS.len a + n) = d.
Proof. intros <-. apply slice_middle. Qed.

Lemma decodeVarint_one_byte (pre rest : list Z) (t : Z) :
  encodeVarint t = [t] -> 0 <= t ->
  decodeVarint (pre ++ [t] ++ rest) (JS.len pre) = (t, 1).
Proof.
  intros Henc Ht. rewrite <- Henc.
  rewrite decodeVarint_encode_at, Henc by assumption. reflexivity.
Qed.

Lemma parseField_known (pre tail : list Z) (k : KnownField) :
  knownOk k ->
  parseField (pre ++ encodeKnown k ++ tail) (JS.len pre)
  = Some (parsedAs (JS.len pre) k, JS.len pre + JS.len (encodeKnown k)).
Proof.
  intros Hok. destruct k as [f v | f d | f bits | f d]; cbn [knownOk] in Hok.
  - destruct Hok as [Hf Hv].
    destruct (tagByte_spec f 0 Hf (or_introl eq_refl))
      as (Henc & Hpos & Hnum & Hwt).
    cbn [encodeKnown parsedAs]. unfold encodeInt64Field.
    set (t := JS.toUint8 (JS.or (JS.shl f 3) 0)) in *.
    unfold parseField.
    change (t :: encodeVarint v) with ([t] ++ encodeVarint v).
    rewrite <- !app_assoc.
    rewrite (decodeVarint_one_byte pre _ t Henc Hpos).
    cbn [fst snd]. rewrite Hwt, Hnum. cbn [Z.eqb].
    replace (JS.len pre + 1) with (JS.len (pre ++ [t]))
      by (rewrite len_app; reflexivity).
    rewrite (app_assoc pre [t]).
    rewrite decodeVarint_encode_at by assumption.
    cbn [fst snd]. rewrite !len_app.
    replace (JS.len pre + JS.len [t] + JS.len (encodeVarint v) - JS.len pre)
      with (JS.len [t] + JS.len (encodeVarint v)) by lia.
    rewrite Z.add_assoc. reflexivity.
  - destruct (tagByte_spec f 2 Hok (or_intror (or_introl eq_refl)))
      as (Henc & Hpos & Hnum & Hwt).
    cbn [encodeKnown parsedAs]. unfold encodeMessageField.
    set (t := JS.toUint8 (JS.or (JS.shl f 3) 2)) in *.
    unfold parseField.
    change (t :: encodeVarint (JS.len d) ++ d)
      with ([t] ++ encodeVarint (JS.len d) ++ d).
    rewrite <- !app_assoc.
    rewrite (decodeVarint_one_byte pre _ t Henc Hpos).
    cbn [fst snd]. rewrite Hwt, Hnum. cbn [Z.eqb].
    replace (JS.len pre + 1) with (JS.len (pre ++ [t]))
      by (rewrite len_app; reflexivity).
    rewrite (app_assoc pre [t]).
    rewrite decodeVarint_encode_at by apply len_nonneg.
    cbn [fst snd].
    replace (JS.len (pre ++ [t]) + JS.len (encodeVarint (JS.len d)))
      with (JS.len ((pre ++ [t]) ++ encodeVarint (JS.len d)))
      by apply len_app.
    rewrite (app_assoc (pre ++ [t])).
    rewrite slice_middle.
    rewrite !len_app.
    replace (JS.len pre + JS.len [t] + JS.len (encodeVarint (JS.len d))
             + JS.len d - JS.len pre)
      with (JS.len [t] + (JS.len (encodeVarint (JS.len d)) + JS.len d))
      by lia.
    rewrite !Z.add_assoc. reflexivity.
  - destruct (tagByte_spec f 1 Hok
                (or_intror (or_intror (or_introl eq_refl))))
      as (Henc & Hpos & Hnum & Hwt).
    cbn [encodeKnown parsedAs]. unfold ToolEncoding.encodeDoubleField.
    set (t := JS.toUint8 (JS.or (JS.shl f 3) 1)) in *.
    unfold parseField.
    change (t :: ToolEncoding.float64LE bits)
      with ([t] ++ ToolEncoding.float64LE bits).
    rewrite <- !app_assoc.
    rewrite (decodeVarint_one_byte pre _ t Henc Hpos).
    cbn [fst snd]. rewrite Hwt, Hnum. cbn [Z.eqb Pos.eqb].
    replace (JS.len pre + 1) with (JS.len (pre ++ [t]))
      by (rewrite len_app; reflexivity).
    rewrite (app_assoc pre [t]).
    rewrite slice_fixed by reflexivity.
    rewrite !len_app. change (JS.len (ToolEncoding.float64LE bits)) with 8.
    rewrite <- Z.add_assoc. reflexivity.
  - destruct Hok as [Hf Hd].
    destruct (tagByte_spec f 5 Hf
                (or_intror (or_intror (or_intror eq_refl))))
      as (Henc & Hpos & Hnum & Hwt).
    cbn [encodeKnown parsedAs].
    set (t := JS.toUint8 (JS.or (JS.shl f 3) 5)) in *.
    unfold parseField.
    change (t :: d) with ([t] ++ d).
    rewrite <- !app_assoc.
    rewrite (decodeVarint_one_byte pre _ t Henc Hpos).
    cbn [fst snd]. rewrite Hwt, Hnum. cbn [Z.eqb Pos.eqb].
    replace (JS.len pre + 1) with (JS.len (pre ++ [t]))
      by (rewrite len_app; reflexivity).
    rewrite (app_assoc pre [t]).
    rewrite slice_fixed by assumption.
    rewrite !len_app, Hd.
    rewrite <- Z.add_assoc. reflexivity.
Qed.

Lemma parseField_unknown (pre rest : list Z) (tag : Z) :
  0 <= tag -> unknownWireType tag ->
  parseField (pre ++ encodeVarint tag ++ rest) (JS.len pre) = None.
Proof.
  intros Htag (H0 & H1 & H2 & H5). unfold parseField.
  rewrite decodeVarint_encode_at by assumption. cbn [fst snd].
  destruct (Z.eqb_spec (Z.land tag 7) 2); [contradiction |].
  destruct (Z.eqb_spec (Z.land tag 7) 0); [contradiction |].
  destruct (Z.eqb_spec (Z.land tag 7) 1); [contradiction |].
  destruct (Z.eqb_spec (Z.land tag 7) 5); [contradiction |].
  reflexivity.
Qed.

Lemma stopsAt_end : stopsAt [].
Proof.
  intros pre fuel fields. cbn [parseProtoFields_loop].
  rewrite app_nil_r. rewrite Z.ltb_irrefl. reflexivity.
Qed.

Lemma stopsAt_unknown (tag : Z) (rest : list Z) :
  0 <= tag -> unknownWireType tag -> stopsAt (encodeVarint tag ++ rest).
Proof.
  intros Htag Hunk pre fuel fields. cbn [parseProtoFields_loop].
  rewrite parseField_unknown by assumption.
  destruct (_ <? _); reflexivity.
Qed.

Lemma encodeKnown_nonempty (k : KnownField) : 1 <= JS.len (encodeKnown k).
Proof.
  destruct k as [f v | f d | f bits | f d]; cbn [encodeKnown];
    unfold encodeInt64Field, encodeMessageField,
      ToolEncoding.encodeDoubleField; rewrite len_cons.
  - pose proof (len_nonneg (encodeVarint v)). lia.
  - pose proof (len_nonneg (encodeVarint (JS.len d) ++ d)). lia.
  - pose proof (len_nonneg (ToolEncoding.float64LE bits)). lia.
  - pose proof (len_nonneg d). lia.
Qed.

Lemma parseProtoFields_loop_known (ks : list KnownField) (tail : list Z) :
  Forall knownOk ks -> stopsAt tail ->
  forall pre fields fuel,
    (List.length ks < fuel)%nat ->
    parseProtoFields_loop fuel (pre ++ encodeKnowns ks ++ tail)
      (JS.len pre) fields
    = Some (fields ++ parsedFrom (JS.len pre) ks).
Proof.
  intros Hok Hstop. induction Hok as [| k ks Hk _ IH];
    intros pre fields fuel Hfuel.
  - destruct fuel as [| fuel]; [cbn in Hfuel; lia |].
    cbn [encodeKnowns concatBytes map List.concat app parsedFrom].
    rewrite app_nil_r. apply Hstop.
  - destruct fuel as [| fuel]; [cbn in Hfuel; lia |].
    cbn [List.length] in Hfuel.
    unfold encodeKnowns, concatBytes in *.
    cbn [map List.concat parsedFrom parseProtoFields_loop].
    rewrite <- app_assoc.
    pose proof (encodeKnown_nonempty k) as Hne.
    pose proof (len_nonneg (List.concat (map encodeKnown ks))) as Hrest.
    pose proof (len_nonneg tail) as Htail.
    destruct (Z.ltb_spec (JS.len pre)
                (JS.len (pre ++ encodeKnown k
                           ++ List.concat (map encodeKnown ks) ++ tail)))
      as [_ | Hge]; [| rewrite !len_app in Hge; lia].
    rewrite parseField_known by assumption.
    rewrite <- len_app, app_assoc.
    rewrite IH by lia. rewrite <- app_assoc. reflexivity.
Qed.

Lemma encodeKnowns_length (ks : list KnownField) :
  (List.length ks <= List.length (encodeKnowns ks))%nat.
Proof.
  induction ks as [| k ks IH]; [cbn; lia |].
  unfold encodeKnowns, concatBytes in *. cbn [map List.concat List.length].
  rewrite length_app. pose proof (encodeKnown_nonempty k) as Hne.
  unfold JS.len in Hne. lia.
Qed.

(** C1, as the script has it.  [parseProtoFields] returns a field list
    for every byte array and has no error result.  On a message of
    varint, length-delimited, fixed64 and fixed32 fields it returns every
    field in order; when such fields are followed by a tag whose wire type
    is none of 0, 1, 2, 5 the loop stops there: the fields before the tag
    are returned and whatever follows it is left out. *)
Theorem parseProtoFields_stops_at_unknown_wire_type
    (ks : list KnownField) (tag : Z) (rest : list Z) :
  Forall knownOk ks -> 0 <= tag -> unknownWireType tag ->
  parseProtoFields (encodeKnowns ks) = Some (parsedFrom 0 ks)
  /\ parseProtoFields (encodeKnowns ks ++ encodeVarint tag ++ rest)
     = Some (parsedFrom 0 ks)
  /\ (forall data, exists fields, parseProtoFields data = Some fields).
Proof.
  intros Hok Htag Hunk.
  pose proof (encodeKnowns_length ks) as Hlen.
  split; [| split].
  - unfold parseProtoFields.
    pose proof (parseProtoFields_loop_known ks [] Hok stopsAt_end [] []
                  (S (List.length (encodeKnowns ks))) ltac:(lia)) as H.
    cbn [app] in H. rewrite app_nil_r in H. exact H.
  - unfold parseProtoFields.
    pose proof (parseProtoFields_loop_known ks (encodeVarint tag ++ rest)
                  Hok (stopsAt_unknown tag rest Htag Hunk) [] []
                  (S (List.length
                        (encodeKnowns ks ++ encodeVarint tag ++ rest))))
      as H.
    cbn [app] in H. apply H. rewrite length_app. lia.
  - apply parseProtoFields_total.
Qed.

Lemma parseProtoFields_stops_at_unknown_wire_type_witness :
  parseProtoFields [8; 1; 18; 1; 7]
  = Some [mkField 1 0 (VVarint 1) 0 2; mkField 2 2 (VBytes [7]) 2 3]
  /\ parseProtoFields ([8; 1; 18; 1; 7] ++ [11] ++ [16; 2])
     = Some [mkField 1 0 (VVarint 1) 0 2; mkField 2 2 (VBytes [7]) 2 3].
Proof.
  assert (Hok : Forall knownOk [KVarint 1 1; KBytes 2 [7]]).
  { repeat constructor; cbv; discriminate. }
  assert (Htag : 0 <= 11) by lia.
  assert (Hunk : unknownWireType 11).
  { repeat split; cbv; discriminate. }
  destruct (parseProtoFields_stops_at_unknown_wire_type
              [KVarint 1 1; KBytes 2 [7]] 11 [16; 2] Hok Htag Hunk)
    as (H1 & H2 & _).
  split; [exact H1 | exact H2].
Defined.

(** C1 fails as stated: after the tag byte 11 (field 1, wire type 3) the
    bytes [16; 2] hold a well-formed field (field 2, varint 2), which
    [parseField] decodes when started there; [parseProtoFields] returns
    normally with the first field only, and the trailing field is not in
    the result. *)
Lemma parseProtoFields_drops_trailing_field :
  parseProtoFields [8; 1; 11; 16; 2] = Some [mkField 1 0 (VVarint 1) 0 2]
  /\ parseField [8; 1; 11; 16; 2] 3 = Some (mkField 2 0 (VVarint 2) 3 2, 5)
  /\ parseProtoFields [8; 1; 16; 2]
     = Some [mkField 1 0 (VVarint 1) 0 2; mkField 2 0 (VVarint 2) 2 2].
Proof. repeat split; vm_compute; reflexivity. Qed.

(** ** The frame header *)


Lemma shl_small (a k : Z) :
  0 <= k < 32 -> 0 <= a -> a * 2 ^ k < 2 ^ 31 ->
  JS.shl a k = Z.shiftl a k.
Proof.
  intros Hk Ha Hb. unfold JS.shl.
  assert (a < 2 ^ 31).
  { assert (1 <= 2 ^ k) by (apply Z.pow_le_mono_r with (b := 0); lia). nia. }
  rewrite (toInt32_small a), Z.mod_small by lia.
  rewrite Z.shiftl_mul_pow2 by lia.
  apply toInt32_small. lia.
Qed.








Lemma lor_bound (a b k : Z) :
  0 <= k -> 0 <= a < 2 ^ k -> 0 <= b < 2 ^ k -> 0 <= Z.lor a b < 2 ^ k.
Proof.
  intros Hk Ha Hb.
  assert (Hnn : 0 <= Z.lor a b) by (apply Z.lor_nonneg; lia).
  split; [assumption |].
  destruct (Z.eq_dec (Z.lor a b) 0) as [-> | Hne].
  - apply Z.pow_pos_nonneg; lia.
  - apply Z.log2_lt_pow2; [lia |].
    rewrite Z.log2_lor by lia.
    destruct (Z.eq_dec a 0) as [-> | Ha0];
      destruct (Z.eq_dec b 0) as [-> | Hb0].
    + cbn in Hne. contradiction.
    + cbn [Z.log2]. rewrite Z.max_r by apply Z.log2_nonneg.
      apply Z.log2_lt_pow2; lia.
    + cbn [Z.log2]. rewrite Z.max_l by apply Z.log2_nonneg.
      apply Z.log2_lt_pow2; lia.
    + apply Z.max_lub_lt; apply Z.log2_lt_pow2; lia.
Qed.



(** ** Extracting frames from a buffer *)






Lemma sliceFrom_app {A} (a b : list A) :
  JS.sliceFrom (a ++ b) (JS.len a) = b.
Proof.
  unfold JS.sliceFrom.
  pose proof (slice_middle a b []) as H.
  rewrite app_nil_r in H. rewrite len_app. exact H.
Qed.


(** ** Chunk boundaries *)








(** ** The reading loop of the script *)

Example frameLength_wraps : frameLength [0; 128; 0; 0; 0] 0 = - 2 ^ 31.
Proof. reflexivity. Qed.

(** A header whose 32-bit length is -5 gives an empty frame and leaves the
    offset where it was: the loop of the script does not end on it. *)
Example readFrame_stays :
  readFrame [0; 255; 255; 255; 251] 0 = Some (mkFrame 0 [], 0).
Proof. reflexivity. Qed.

(** The reading loop of [main] is the framer as long as the script keeps
    reading, that is for at most 51 chunks. *)
Lemma readLoop_feedChunks (values : list (list Z)) :
  forall fuel fullBuffer chunks frames,
    chunks + JS.len values <= 51 ->
    readLoop fuel fullBuffer values chunks frames
    = option_map fst (feedChunks fuel fullBuffer values frames).
Proof.
  induction values as [| value values IH];
    intros fuel fullBuffer chunks frames Hcap.
  - reflexivity.
  - cbn [readLoop feedChunks]. rewrite len_cons in Hcap.
    pose proof (len_nonneg values) as Hn.
    destruct (feedChunk fuel fullBuffer value) as [[found rest] |];
      [| reflexivity].
    destruct (Z.gtb_spec (chunks + 1) 50) as [Hgt | Hle].
    + assert (values = []) as ->.
      { destruct values; [reflexivity |]. rewrite len_cons in Hcap.
        pose proof (len_nonneg values). lia. }
      reflexivity.
    + apply IH. lia.
Qed.

(** ** Zero values and empty messages on encode *)

(** C3 fails as stated: [encodeInt64Field] writes a zero value, and
    [main] uses it so in [bidiAppendRequest], whose last two bytes are the
    tag of field 3 and the value 0. *)
Lemma zero_int64_field_is_written :
  encodeInt64Field 3 0 = [24; 0]
  /\ encodeInt32Field 3 0 = []
  /\ bidiAppendRequest "" [] = [10; 0; 18; 0; 24; 0].
Proof. repeat split; vm_compute; reflexivity. Qed.

(** C3, as the scripts have it.  A zero [int32] or [uint32] field is
    left out, while [encodeInt64Field] writes the tag and a 0 byte.  The
    empty conversation-state field is written by [encodeMessageField] as
    the two bytes 10, 0 (field 1, length 0) at the head of
    [agentRunRequest]; [encodeMessageFieldSkipEmpty] writes nothing for
    it, and the request of [main] is the skip-empty request with those
    two bytes in front, the same as the request marked as working in the
    comparison script. *)
Theorem empty_conversation_state_is_written
    (fieldNumber : Z) (conversationAction modelDetails : list Z)
    (conversationId : string) :
  (encodeInt32Field fieldNumber 0 = []
   /\ Compare.encodeUint32Field fieldNumber 0 = []
   /\ encodeInt64Field fieldNumber 0
      = [JS.toUint8 (JS.or (JS.shl fieldNumber 3) 0); 0])
  /\ (encodeMessageField fieldNumber []
      = [JS.toUint8 (JS.or (JS.shl fieldNumber 3) 2); 0]
      /\ Compare.encodeMessageFieldSkipEmpty fieldNumber [] = [])
  /\ (agentRunRequest conversationAction modelDetails conversationId
      = [10; 0]
          ++ Compare.agentRunRequest2 conversationAction modelDetails
               conversationId
      /\ Compare.agentRunRequest1 conversationAction modelDetails
           conversationId
         = agentRunRequest conversationAction modelDetails conversationId).
Proof.
  repeat split; reflexivity.
Qed.

(** ** [encodeProtobufValue] *)

(** C5 at the failing inputs: [null] and the empty string are both
    encoded as no bytes at all, so no decoder gives both back, whatever
    the order of keys. *)
Theorem encodeProtobufValue_null_and_empty_string_collide :
  ToolEncoding.encodeProtobufValue JNull = []
  /\ ToolEncoding.encodeProtobufValue (JString "") = []
  /\ forall decode : list Z -> JsonValue,
       ~ (jsonEquiv (decode (ToolEncoding.encodeProtobufValue JNull)) JNull
          /\ jsonEquiv
               (decode (ToolEncoding.encodeProtobufValue (JString "")))
               (JString "")).
Proof.
  split; [reflexivity |]. split; [reflexivity |].
  intros decode [Hnull Hstr].
  change (ToolEncoding.encodeProtobufValue JNull) with (@nil Z) in Hnull.
  change (ToolEncoding.encodeProtobufValue (JString "")) with (@nil Z)
    in Hstr.
  inversion Hnull as [Hd | | | | |]. rewrite <- Hd in Hstr.
  inversion Hstr.
Qed.

(** The other rows of the table hold: a number is a fixed64 field 2, a
    non-empty string a length-delimited field 3, a boolean a varint
    field 4, a list a field 6 of wrapped items, an object a field 5 of
    key/value entries in the order given. *)
Lemma encodeProtobufValue_rows (bits : Z) (b : bool)
    (items : list JsonValue) (entries : list (string * JsonValue)) :
  ToolEncoding.encodeProtobufValue (JNumber bits)
  = 17 :: ToolEncoding.float64LE bits
  /\ ToolEncoding.encodeProtobufValue (JBool b) = [32; if b then 1 else 0]
  /\ ToolEncoding.encodeProtobufValue (JArray items)
     = ToolEncoding.encodeMessageField 6
         (List.concat
            (map (fun item =>
                    ToolEncoding.encodeMessageField 1
                      (ToolEncoding.encodeProtobufValue item)) items))
  /\ ToolEncoding.encodeProtobufValue (JObject entries)
     = ToolEncoding.encodeMessageField 5
         (List.concat
            (map (fun entry =>
                    ToolEncoding.encodeMessageField 1
                      (ToolEncoding.encodeStringField 1 (fst entry)
                       ++ ToolEncoding.encodeMessageField 2
                            (ToolEncoding.encodeProtobufValue (snd entry))))
               entries)).
Proof.
  repeat split; try reflexivity.
  cbn [ToolEncoding.encodeProtobufValue]. unfold concatBytes.
  do 2 f_equal. apply map_ext. intros entry. cbn [List.concat].
  rewrite app_nil_r. reflexivity.
Qed.

(** ** Tool names *)

(** C9. The tool-name mapping is a function defined on every exec
    request; it follows the table (shell to bash, read to read, write to
    write, ls to list, grep by pattern to grep, grep by glob to glob), it
    hands an mcp request on under its own tool name with its arguments
    unchanged, and it gives the sentinel "unknown" for every kind outside
    the table. *)
Theorem tool_name_mapping_total (r : ExecRequest) :
  (execKind r = "shell"%string -> mapToolName r = "bash"%string)
  /\ (execKind r = "read"%string -> mapToolName r = "read"%string)
  /\ (execKind r = "write"%string -> mapToolName r = "write"%string)
  /\ (execKind r = "ls"%string -> mapToolName r = "list"%string)
  /\ (execKind r = "grep"%string -> grepBy r = ByPattern ->
      mapToolName r = "grep"%string)
  /\ (execKind r = "grep"%string -> grepBy r = ByGlob ->
      mapToolName r = "glob"%string)
  /\ (execKind r = "mcp"%string ->
      mapExecRequest r
      = ToolInvocation (mcpToolName r) (execArguments r) (execCallId r))
  /\ (~ In (execKind r) knownKinds -> mapToolName r = "unknown"%string).
Proof.
  unfold mapExecRequest, mapToolName.
  repeat split.
  1-4: intros ->; reflexivity.
  1-2: intros -> ->; reflexivity.
  - intros ->. reflexivity.
  - intros Hnot. unfold knownKinds in Hnot. cbn [In] in Hnot.
    repeat match goal with
           | |- context [String.eqb ?a ?b] =>
               destruct (String.eqb_spec a b) as [He | _];
               [exfalso; apply Hnot; rewrite He; auto 10 |]
           end.
    reflexivity.
Qed.

Lemma tool_name_mapping_total_witness :
  mapToolName (mkExec "shell" ByPattern "" "{}" "call_0") = "bash"%string
  /\ mapToolName (mkExec "grep" ByGlob "" "{}" "call_1") = "glob"%string
  /\ mapToolName (mkExec "teleport" ByPattern "" "{}" "call_2")
     = "unknown"%string.
Proof.
  split; [| split].
  - exact (proj1 (tool_name_mapping_total
                    (mkExec "shell" ByPattern "" "{}" "call_0")) eq_refl).
  - destruct (tool_name_mapping_total
                (mkExec "grep" ByGlob "" "{}" "call_1"))
      as (_ & _ & _ & _ & _ & Hglob & _).
    exact (Hglob eq_refl eq_refl).
  - destruct (tool_name_mapping_total
                (mkExec "teleport" ByPattern "" "{}" "call_2"))
      as (_ & _ & _ & _ & _ & _ & _ & Hunknown).
    apply Hunknown. cbn.
    intros [H | [H | [H | [H | [H | [H | []]]]]]]; discriminate H.
Defined.

(** ** Events of a turn with tools *)




Lemma append_empty_r (s : string) : String.append s EmptyString = s.
Proof. induction s as [| c s IH]; cbn; congruence. Qed.







(** ** Session policy *)



(** After its 51st chunk the script stops reading: of eleven empty frames
    delivered one byte at a time it sees ten. *)
Example readLoop_stops_after_51_chunks :
  let stream := encodeFrames (repeat (mkFrame 0 []) 11) in
  let values := map (fun byte => [byte]) stream in
  readLoop 12 [] values 0 [] = Some (repeat (mkFrame 0 []) 10)
  /\ feedChunks 12 [] values [] = Some (repeat (mkFrame 0 []) 11, []).
Proof. split; vm_compute; reflexivity. Qed.

(** * Further properties of the scripts *)

(** ** The bytes [encodeVarint] writes *)

Lemma encodeVarint_nonempty (v : Z) : 1 <= JS.len (encodeVarint v).
Proof.
  destruct (Z_gt_dec v 127).
  - rewrite encodeVarint_big, len_cons by lia.
    pose proof (len_nonneg (encodeVarint (Z.shiftr v 7))). lia.
  - rewrite encodeVarint_small by lia. cbv. discriminate.
Qed.

Lemma shiftr7_range (v : Z) : 127 < v -> 1 <= Z.shiftr v 7 < v.
Proof.
  intros Hv. rewrite Z.shiftr_div_pow2 by lia. split.
  - apply Z.div_le_lower_bound; lia.
  - apply Z.div_lt; lia.
Qed.

(** X1. For an unsigned value the encoding is a well-formed varint: every
    byte but the last lies in [128, 256) (continuation bit set), and the
    last byte lies in [0, 128). *)
Theorem encodeVarint_wellformed (v : Z) :
  0 <= v ->
  exists body last,
    encodeVarint v = body ++ [last]
    /\ Forall (fun byte => 128 <= byte < 256) body
    /\ 0 <= last < 128.
Proof.
  intros Hv. generalize Hv. pattern v. apply Z_lt_induction; [| exact Hv].
  clear v Hv. intros v IH Hv.
  destruct (Z_gt_dec v 127) as [Hbig | Hsmall].
  - pose proof (shiftr7_range v ltac:(lia)) as Hr.
    destruct (IH (Z.shiftr v 7) ltac:(lia) ltac:(lia))
      as (body & last & Henc & Hbody & Hlast).
    exists (Z.lor (Z.land v 127) 128 :: body), last.
    rewrite encodeVarint_big, Henc by lia. repeat split; try lia.
    constructor; [| assumption].
    apply (lor_128_bits _ (land_127_range v)).
  - exists [], v. rewrite encodeVarint_small by lia.
    unfold JS.toUint8. rewrite Z.mod_small by lia.
    repeat split; try lia. constructor.
Qed.

Lemma encodeVarint_wellformed_witness :
  exists body last,
    encodeVarint 300 = body ++ [last]
    /\ Forall (fun byte => 128 <= byte < 256) body
    /\ 0 <= last < 128.
Proof. exact (encodeVarint_wellformed 300 ltac:(lia)). Defined.

Lemma encodeVarint_len_iff (v k : Z) :
  0 <= v -> 1 <= k ->
  (v < 2 ^ (7 * k) <-> JS.len (encodeVarint v) <= k).
Proof.
  intros Hv. revert k. generalize Hv. pattern v.
  apply Z_lt_induction; [| exact Hv].
  clear v Hv. intros v IH Hv k Hk.
  destruct (Z_gt_dec v 127) as [Hbig | Hsmall].
  - pose proof (shiftr7_range v ltac:(lia)) as Hr.
    rewrite encodeVarint_big, len_cons by lia.
    pose proof (encodeVarint_nonempty (Z.shiftr v 7)) as Hne.
    destruct (Z.eq_dec k 1) as [-> | Hk1].
    + change (2 ^ (7 * 1)) with 128. lia.
    + specialize (IH (Z.shiftr v 7) ltac:(lia) ltac:(lia) (k - 1)
                     ltac:(lia)).
      assert (Hdiv : v < 2 ^ (7 * k) <-> Z.shiftr v 7 < 2 ^ (7 * (k - 1))).
      { rewrite Z.shiftr_div_pow2 by lia.
        replace (7 * k) with (7 + 7 * (k - 1)) by lia.
        rewrite Z.pow_add_r by lia.
        assert (0 < 2 ^ (7 * (k - 1))) by (apply Z.pow_pos_nonneg; lia).
        split; intros H'.
        - apply Z.div_lt_upper_bound; lia.
        - pose proof (Z.mul_div_le v (2 ^ 7) ltac:(lia)).
          pose proof (Z.mod_pos_bound v (2 ^ 7) ltac:(lia)).
          pose proof (Z.div_mod v (2 ^ 7) ltac:(lia)). nia. }
      lia.
  - rewrite encodeVarint_small by lia. change (JS.len [JS.toUint8 v]) with 1.
    assert (2 ^ 7 <= 2 ^ (7 * k)) by (apply Z.pow_le_mono_r; lia).
    lia.
Qed.

(** X2. The number of bytes written for an unsigned value: at most [k]
    bytes exactly when the value is below 2^(7k); so a 64-bit value takes
    at most ten bytes. *)
Theorem encodeVarint_length (v k : Z) :
  0 <= v -> 1 <= k ->
  (v < 2 ^ (7 * k) <-> JS.len (encodeVarint v) <= k).
Proof. exact (encodeVarint_len_iff v k). Qed.

Lemma encodeVarint_length_witness :
  (2 ^ 64 - 1 < 2 ^ (7 * 10)
   <-> JS.len (encodeVarint (2 ^ 64 - 1)) <= 10).
Proof.
  exact (encodeVarint_length (2 ^ 64 - 1) 10 ltac:(lia) ltac:(lia)).
Defined.



(** X4. Varints are uniquely decodable: if two encodings of unsigned
    values, each followed by arbitrary bytes, give the same byte sequence,
    the values are equal and so are the bytes that follow. *)
Theorem encodeVarint_prefix_free (v1 v2 : Z) (rest1 rest2 : list Z) :
  0 <= v1 -> 0 <= v2 ->
  encodeVarint v1 ++ rest1 = encodeVarint v2 ++ rest2 ->
  v1 = v2 /\ rest1 = rest2.
Proof.
  intros H1 H2 Heq.
  pose proof (decodeVarint_loop_encode v1 H1 rest1 0 0 0 ltac:(lia)) as D1.
  pose proof (decodeVarint_loop_encode v2 H2 rest2 0 0 0 ltac:(lia)) as D2.
  rewrite Z.shiftl_0_r, Z.lor_0_l in D1, D2.
  rewrite Heq, D2 in D1. injection D1 as Hv _. subst v2.
  split; [reflexivity |]. exact (app_inv_head _ _ _ Heq).
Qed.

Lemma encodeVarint_prefix_free_witness :
  300 = 300 /\ [7; 8] = [7; 8].
Proof.
  exact (encodeVarint_prefix_free 300 300 [7; 8] [7; 8]
           ltac:(lia) ltac:(lia) eq_refl).
Defined.

(** ** The 32-bit varint decoder of the tool-encoding script *)

Lemma decodeVarint32_loop_encode (v : Z) :
  0 <= v ->
  forall rest value shift n,
    0 <= shift < 32 -> 0 <= value < 2 ^ 31 -> v * 2 ^ shift < 2 ^ 31 ->
    ToolEncoding.decodeVarint_loop (encodeVarint v ++ rest) value shift n
    = (Z.lor value (Z.shiftl v shift), n + JS.len (encodeVarint v)).
Proof.
  intros Hv. generalize Hv. pattern v. apply Z_lt_induction; [| exact Hv].
  clear v Hv. intros v IH Hv rest value shift n Hs Hval Hfit.
  assert (Hpow : 0 < 2 ^ shift) by (apply Z.pow_pos_nonneg; lia).
  pose proof (land_127_range v) as Hlo.
  assert (Hle : Z.land v 127 <= v).
  { change 127 with (Z.ones 7). rewrite Z.land_ones by lia.
    apply Z.mod_le; lia. }
  assert (Hlofit : Z.land v 127 * 2 ^ shift < 2 ^ 31) by nia.
  assert (Hshl : 0 <= Z.shiftl (Z.land v 127) shift < 2 ^ 31)
    by (rewrite Z.shiftl_mul_pow2 by lia; nia).
  destruct (Z_gt_dec v 127) as [Hbig | Hsmall].
  - rewrite encodeVarint_big by lia.
    destruct (lor_128_bits _ Hlo) as (H127 & H128 & Hb).
    cbn [app ToolEncoding.decodeVarint_loop].
    rewrite !and_small by lia. rewrite H127, H128.
    change (128 =? 0) with false. cbv iota.
    rewrite shl_small by lia. rewrite or_small by lia.
    pose proof (shiftr7_range v ltac:(lia)) as Hr.
    assert (Hmul : Z.shiftr v 7 * 2 ^ 7 <= v).
    { rewrite Z.shiftr_div_pow2 by lia.
      pose proof (Z.mul_div_le v (2 ^ 7) ltac:(lia)). lia. }
    assert (Hs7 : shift + 7 < 32).
    { assert (2 ^ (shift + 7) < 2 ^ 31).
      { rewrite Z.pow_add_r by lia. nia. }
      apply Z.pow_lt_mono_r_iff in H; lia. }
    assert (Hfit7 : Z.shiftr v 7 * 2 ^ (shift + 7) < 2 ^ 31).
    { rewrite Z.pow_add_r by lia. nia. }
    rewrite IH; try lia.
    + rewrite <- Z.lor_assoc, shiftl_groups by lia.
      rewrite len_cons. f_equal; lia.
    + apply lor_bound; lia.
  - rewrite encodeVarint_small by lia.
    unfold JS.toUint8. rewrite Z.mod_small by lia.
    cbn [app ToolEncoding.decodeVarint_loop].
    rewrite !and_small by lia.
    rewrite land_7bit_128 by lia. change (0 =? 0) with true. cbv iota.
    assert (Hid : Z.land v 127 = v).
    { change 127 with (Z.ones 7). rewrite Z.land_ones by lia.
      apply Z.mod_small. lia. }
    rewrite Hid in *.
    rewrite shl_small by lia. rewrite or_small by lia.
    rewrite len_cons, len_nil. f_equal; lia.
Qed.

(** X5. The decoder that works on Numbers reads back every value below
    2^31 written by [encodeVarint]; from 2^31 on its 32-bit [<<] and [|]
    wrap, and 2^31 itself comes back as -2^31. *)
Theorem decodeVarint32_roundtrip (v : Z) :
  0 <= v < 2 ^ 31 ->
  ToolEncoding.decodeVarint (encodeVarint v) 0
  = (v, JS.len (encodeVarint v))
  /\ ToolEncoding.decodeVarint (encodeVarint (2 ^ 31)) 0 = (- 2 ^ 31, 5).
Proof.
  intros Hv. split; [| reflexivity].
  unfold ToolEncoding.decodeVarint. cbn [Z.ltb Z.compare Z.to_nat skipn].
  pose proof (decodeVarint32_loop_encode v ltac:(lia) [] 0 0 0
                ltac:(lia) ltac:(lia) ltac:(lia)) as H.
  rewrite app_nil_r, Z.shiftl_0_r, Z.lor_0_l in H. exact H.
Qed.

Lemma decodeVarint32_roundtrip_witness :
  ToolEncoding.decodeVarint (encodeVarint 70000) 0
  = (70000, JS.len (encodeVarint 70000))
  /\ ToolEncoding.decodeVarint (encodeVarint (2 ^ 31)) 0 = (- 2 ^ 31, 5).
Proof. exact (decodeVarint32_roundtrip 70000 ltac:(lia)). Defined.

(** ** More on [parseProtoFields] *)

Lemma parseField_offset (data : list Z) (offset : Z)
    (field : ParsedField) (offset' : Z) :
  parseField data offset = Some (field, offset') -> pf_offset field = offset.
Proof.
  unfold parseField.
  destruct (_ =? 2); [intros [= <- _]; reflexivity |].
  destruct (_ =? 0); [intros [= <- _]; reflexivity |].
  destruct (_ =? 1); [intros [= <- _]; reflexivity |].
  destruct (_ =? 5); [intros [= <- _]; reflexivity |].
  discriminate.
Qed.

Lemma parseProtoFields_loop_offsets (fuel : nat) :
  forall data offset fields result,
    0 <= offset ->
    parseProtoFields_loop fuel data offset fields = Some result ->
    exists new,
      result = fields ++ new
      /\ Forall (fun f => offset <= pf_offset f < JS.len data) new
      /\ StronglySorted Z.lt (map pf_offset new)
      /\ JS.len new <= Z.max 0 (JS.len data - offset).
Proof.
  induction fuel as [| fuel IH]; intros data offset fields result Hoff Hrun.
  - discriminate.
  - cbn [parseProtoFields_loop] in Hrun.
    destruct (Z.ltb_spec offset (JS.len data)) as [Hlt | Hge].
    + destruct (parseField data offset) as [[field offset'] |] eqn:Hstep.
      * pose proof (parseField_advances data offset field offset'
                      ltac:(lia) Hstep) as Hadv.
        pose proof (parseField_offset data offset field offset' Hstep)
          as Hat.
        destruct (IH data offset' (fields ++ [field]) result
                    ltac:(lia) Hrun)
          as (new & Hres & Hrange & Hsorted & Hcount).
        exists (field :: new). rewrite Hres, <- app_assoc.
        split; [reflexivity |]. split; [| split].
        -- constructor; [lia |].
           eapply Forall_impl; [| exact Hrange]. cbn. intros f Hf. lia.
        -- cbn [map]. constructor; [assumption |].
           apply Forall_map.
           eapply Forall_impl; [| exact Hrange]. cbn. intros f Hf. lia.
        -- rewrite len_cons. lia.
      * injection Hrun as <-. exists []. rewrite app_nil_r.
        repeat split; try constructor. rewrite len_nil. lia.
    + injection Hrun as <-. exists []. rewrite app_nil_r.
      repeat split; try constructor. rewrite len_nil. lia.
Qed.

(** X6. Whatever the bytes, the fields [parseProtoFields] returns begin
    inside the array, at strictly increasing offsets, and there are at
    most as many of them as there are bytes. *)
Theorem parseProtoFields_offsets (data : list Z) :
  exists fields,
    parseProtoFields data = Some fields
    /\ Forall (fun f => 0 <= pf_offset f < JS.len data) fields
    /\ StronglySorted Z.lt (map pf_offset fields)
    /\ JS.len fields <= JS.len data.
Proof.
  destruct (parseProtoFields_total data) as [fields Hrun].
  exists fields. split; [assumption |].
  unfold parseProtoFields in Hrun.
  destruct (parseProtoFields_loop_offsets _ data 0 [] fields ltac:(lia) Hrun)
    as (new & Hres & Hrange & Hsorted & Hcount).
  cbn [app] in Hres. subst new.
  pose proof (len_nonneg data). repeat split; try assumption. lia.
Qed.


Lemma parseProtoFields_known (ks : list KnownField) :
  Forall knownOk ks ->
  parseProtoFields (encodeKnowns ks) = Some (parsedFrom 0 ks).
Proof.
  intros Hok. unfold parseProtoFields.
  pose proof (parseProtoFields_loop_known ks [] Hok stopsAt_end [] []
                (S (List.length (encodeKnowns ks)))) as H.
  cbn [app] in H. rewrite app_nil_r in H. apply H.
  pose proof (encodeKnowns_length ks). lia.
Qed.






(** ** The request of [main] read back *)

(** X8. Read back with [parseProtoFields], the [agentRunRequest] that
    [main] builds has four fields: an empty conversation state (field 1),
    the conversation action (2), the model details (3) and the
    conversation id (5).  The request built with the skip-empty encoder
    has the last three only. *)
Theorem agentRunRequest_fields
    (conversationAction modelDetails : list Z) (conversationId : string) :
  option_map numbered
    (parseProtoFields
       (agentRunRequest conversationAction modelDetails conversationId))
  = Some [ (1, VBytes []); (2, VBytes conversationAction);
           (3, VBytes modelDetails);
           (5, VBytes (TextEncoder_encode conversationId)) ]
  /\ option_map numbered
       (parseProtoFields
          (Compare.agentRunRequest2 conversationAction modelDetails
             conversationId))
     = Some [ (2, VBytes conversationAction); (3, VBytes modelDetails);
              (5, VBytes (TextEncoder_encode conversationId)) ].
Proof.
  split.
  - change (agentRunRequest conversationAction modelDetails conversationId)
      with (encodeKnowns
              [KBytes 1 []; KBytes 2 conversationAction;
               KBytes 3 modelDetails;
               KBytes 5 (TextEncoder_encode conversationId)]).
    rewrite parseProtoFields_known; [reflexivity |].
    repeat constructor; cbn; lia.
  - change (Compare.agentRunRequest2 conversationAction modelDetails
              conversationId)
      with (encodeKnowns
              [KBytes 2 conversationAction; KBytes 3 modelDetails;
               KBytes 5 (TextEncoder_encode conversationId)]).
    rewrite parseProtoFields_known; [reflexivity |].
    repeat constructor; cbn; lia.
Qed.

(** ** The framer on hostile headers *)

Lemma toInt32_range (z : Z) : - 2 ^ 31 <= JS.toInt32 z < 2 ^ 31.
Proof.
  unfold JS.toInt32.
  pose proof (Z.mod_pos_bound (z + 2 ^ 31) (2 ^ 32) ltac:(lia)). lia.
Qed.

(** [|] with a negative 32-bit operand gives a negative 32-bit result. *)
Lemma lor_neg_range (a b : Z) :
  - 2 ^ 31 <= a < 0 -> - 2 ^ 31 <= Z.lor a b < 0.
Proof.
  intros Ha.
  assert (Hx : Z.land (Z.lnot a) (Z.ones 31) = Z.lnot a).
  { rewrite Z.land_ones by lia. apply Z.mod_small.
    unfold Z.lnot. lia. }
  assert (Hr : 0 <= Z.land (Z.lnot a) (Z.lnot b) < 2 ^ 31).
  { rewrite <- Hx, <- Z.land_assoc, (Z.land_comm (Z.ones 31)), Z.land_assoc.
    rewrite Z.land_ones by lia. apply Z.mod_pos_bound. lia. }
  rewrite <- (Z.lnot_involutive (Z.lor a b)), Z.lnot_lor.
  set (r := Z.land (Z.lnot a) (Z.lnot b)) in *.
  unfold Z.lnot. lia.
Qed.

Lemma or_neg_range (a b : Z) :
  - 2 ^ 31 <= a < 0 -> - 2 ^ 31 <= JS.or a b < 0.
Proof.
  intros Ha. unfold JS.or. rewrite (toInt32_small a) by lia.
  apply lor_neg_range. assumption.
Qed.

Lemma shl24_high_byte (b : Z) :
  128 <= b < 256 -> - 2 ^ 31 <= JS.shl b 24 < 0.
Proof.
  intros Hb. unfold JS.shl.
  rewrite (toInt32_small b) by lia. change (24 mod 32) with 24.
  rewrite Z.shiftl_mul_pow2 by lia. unfold JS.toInt32.
  replace (b * 2 ^ 24 + 2 ^ 31)
    with (b * 2 ^ 24 - 2 ^ 31 + 1 * 2 ^ 32) by lia.
  rewrite Z_mod_plus_full, Z.mod_small by lia. lia.
Qed.

(** X9. A header whose second byte has its top bit set announces 2^31
    bytes or more; the script's 32-bit arithmetic makes that length
    negative, so the frame is never waited for: with five bytes or more
    in the buffer a frame is taken out at once, and the offset ends up
    inside or before the header. *)
Theorem readFrame_length_overflow (b0 b1 b2 b3 b4 : Z) (rest : list Z) :
  128 <= b1 < 256 ->
  frameLength (b0 :: b1 :: b2 :: b3 :: b4 :: rest) 0 < 0
  /\ exists frame,
       readFrame (b0 :: b1 :: b2 :: b3 :: b4 :: rest) 0
       = Some (frame,
               5 + frameLength (b0 :: b1 :: b2 :: b3 :: b4 :: rest) 0).
Proof.
  intros Hb.
  assert (Hneg : - 2 ^ 31
                 <= frameLength (b0 :: b1 :: b2 :: b3 :: b4 :: rest) 0 < 0).
  { unfold frameLength. cbn [Z.add JS.get Z.ltb Z.compare Z.to_nat
                               Pos.to_nat Pos.iter_op Nat.add nth_error
                               JS.orZero].
    apply or_neg_range, or_neg_range, or_neg_range, shl24_high_byte.
    assumption. }
  split; [lia |].
  unfold readFrame.
  pose proof (len_nonneg rest) as Hrest.
  rewrite !len_cons.
  destruct (Z.leb_spec (0 + 5)
              (1 + (1 + (1 + (1 + (1 + JS.len rest)))))); [| lia].
  destruct (Z.gtb_spec
              (0 + 5 + frameLength (b0 :: b1 :: b2 :: b3 :: b4 :: rest) 0)
              (1 + (1 + (1 + (1 + (1 + JS.len rest)))))); [lia |].
  eexists. reflexivity.
Qed.

Lemma readFrame_length_overflow_witness :
  frameLength [0; 128; 0; 0; 0; 9] 0 < 0
  /\ exists frame,
       readFrame [0; 128; 0; 0; 0; 9] 0
       = Some (frame, 5 + frameLength [0; 128; 0; 0; 0; 9] 0).
Proof.
  exact (readFrame_length_overflow 0 128 0 0 0 [9] ltac:(lia)).
Defined.

Lemma slice_backwards {A} (arr : list A) (start stop : Z) :
  0 <= stop <= start -> start <= JS.len arr -> JS.slice arr start stop = [].
Proof.
  intros Hs Hl. unfold JS.slice.
  rewrite !relIndex_inside by lia.
  replace (Z.to_nat (stop - start)) with 0%nat by lia. reflexivity.
Qed.

Lemma readFrame_minus_five (flag : Z) (rest : list Z) :
  readFrame (flag :: 255 :: 255 :: 255 :: 251 :: rest) 0
  = Some (mkFrame flag [], 0).
Proof.
  unfold readFrame.
  change (frameLength (flag :: 255 :: 255 :: 255 :: 251 :: rest) 0)
    with (-5).
  change (JS.get (flag :: 255 :: 255 :: 255 :: 251 :: rest) 0)
    with (Some flag).
  assert (Hlen : 5 <= JS.len (flag :: 255 :: 255 :: 255 :: 251 :: rest)).
  { rewrite !len_cons. pose proof (len_nonneg rest). lia. }
  destruct (Z.leb_spec (0 + 5)
              (JS.len (flag :: 255 :: 255 :: 255 :: 251 :: rest)));
    [| lia].
  destruct (Z.gtb_spec (0 + 5 + -5)
              (JS.len (flag :: 255 :: 255 :: 255 :: 251 :: rest)));
    [lia |].
  rewrite slice_backwards by lia. reflexivity.
Qed.

(** X10. A header that announces the 32-bit length -5 (bytes 255, 255,
    255, 251) stops the script for good: each turn of the loop takes out
    an empty frame and leaves the offset at the header, so the loop does
    not end, whatever the flag byte, the bytes that follow, or the next
    chunks. *)
Theorem framesLoop_never_ends
    (fuel : nat) (flag : Z) (rest : list Z) (frames : list WireFrame) :
  framesLoop fuel (flag :: 255 :: 255 :: 255 :: 251 :: rest) 0 frames = None
  /\ feedChunk fuel [] (flag :: 255 :: 255 :: 255 :: 251 :: rest) = None.
Proof.
  assert (Hloop : forall acc,
             framesLoop fuel (flag :: 255 :: 255 :: 255 :: 251 :: rest) 0 acc
             = None).
  { induction fuel as [| fuel IH]; intros acc; [reflexivity |].
    cbn [framesLoop]. rewrite readFrame_minus_five. apply IH. }
  split; [apply Hloop |].
  unfold feedChunk. cbn [app]. rewrite Hloop. reflexivity.
Qed.

(** ** The reading loop stops after 51 chunks *)

Lemma readLoop_cap (values : list (list Z)) :
  forall extra fuel fullBuffer chunks frames,
    values <> [] -> chunks + JS.len values = 51 ->
    readLoop fuel fullBuffer (values ++ extra) chunks frames
    = readLoop fuel fullBuffer values chunks frames.
Proof.
  induction values as [| value values IH];
    intros extra fuel fullBuffer chunks frames Hne Hcap; [congruence |].
  cbn [app readLoop]. rewrite len_cons in Hcap.
  destruct (feedChunk fuel fullBuffer value) as [[found buffer] |];
    [| reflexivity].
  destruct values as [| value' values].
  - rewrite len_nil in Hcap.
    destruct (Z.gtb_spec (chunks + 1) 50); [reflexivity | lia].
  - destruct (Z.gtb_spec (chunks + 1) 50); [reflexivity |].
    apply IH; [discriminate | lia].
Qed.

(** X11. The script reads 51 chunks and no more ("Max chunks reached"):
    whatever the reader delivers after the 51st chunk changes nothing in
    the frames the loop has seen. *)
Theorem readLoop_ignores_later_chunks
    (values extra : list (list Z)) (fuel : nat) :
  JS.len values = 51 ->
  readLoop fuel [] (values ++ extra) 0 [] = readLoop fuel [] values 0 [].
Proof.
  intros Hlen. apply readLoop_cap; [| lia].
  intros ->. discriminate Hlen.
Qed.

Lemma readLoop_ignores_later_chunks_witness :
  readLoop 2 [] (repeat [0] 51 ++ [[0; 0; 0; 0]]) 0 []
  = readLoop 2 [] (repeat [0] 51) 0 [].
Proof.
  exact (readLoop_ignores_later_chunks (repeat [0] 51) [[0; 0; 0; 0]] 2
           eq_refl).
Defined.

(** ** The "Length diff" of the comparison script *)

Lemma encodeVarint_len_step (n : Z) :
  0 <= n ->
  JS.len (encodeVarint n) <= JS.len (encodeVarint (n + 2))
  <= JS.len (encodeVarint n) + 1.
Proof.
  intros Hn.
  pose proof (encodeVarint_nonempty n) as H1.
  pose proof (encodeVarint_nonempty (n + 2)) as H2.
  split.
  - apply (encodeVarint_len_iff n _ Hn H2).
    assert (n + 2 < 2 ^ (7 * JS.len (encodeVarint (n + 2))))
      by (apply encodeVarint_len_iff; lia).
    lia.
  - apply encodeVarint_len_iff; [lia | lia |].
    assert (Hlt : n < 2 ^ (7 * JS.len (encodeVarint n)))
      by (apply encodeVarint_len_iff; lia).
    replace (7 * (JS.len (encodeVarint n) + 1))
      with (7 + 7 * JS.len (encodeVarint n)) by lia.
    rewrite Z.pow_add_r by lia. lia.
Qed.

(** X12. The two messages that the comparison script prints differ in
    length by the two bytes of the empty conversation-state field, plus
    one more byte when those two bytes push the length prefix of the
    enclosing message to the next varint size: the "Length diff" is 2
    or 3. *)
Theorem lengthDiff_two_or_three
    (conversationAction1 modelDetails1 : list Z) (conversationId : string) :
  let n :=
    JS.len (Compare.agentRunRequest2 conversationAction1 modelDetails1
              conversationId) in
  Compare.lengthDiff conversationAction1 modelDetails1 conversationId
  = 2 + (JS.len (encodeVarint (n + 2)) - JS.len (encodeVarint n))
  /\ 2 <= Compare.lengthDiff conversationAction1 modelDetails1
            conversationId <= 3.
Proof.
  intros n.
  assert (Hdiff :
            Compare.lengthDiff conversationAction1 modelDetails1
              conversationId
            = 2 + (JS.len (encodeVarint (n + 2))
                   - JS.len (encodeVarint n))).
  { unfold Compare.lengthDiff, Compare.agentClientMessage1,
      Compare.agentClientMessage2, encodeMessageField.
    change (Compare.agentRunRequest1 conversationAction1 modelDetails1
              conversationId)
      with ([10; 0] ++ Compare.agentRunRequest2 conversationAction1
                         modelDetails1 conversationId).
    rewrite !len_cons, !len_app. fold n.
    change (JS.len [10; 0]) with 2.
    replace (2 + n) with (n + 2) by lia. lia. }
  split; [exact Hdiff |].
  pose proof (encodeVarint_len_step n ltac:(subst n; apply len_nonneg)).
  lia.
Qed.

Example lengthDiff_is_three_at_126 :
  Compare.lengthDiff (repeat 0 104) [] "0123456789abcdef" = 3.
Proof. vm_compute. reflexivity. Qed.

(** ** What [encodeProtobufValue] writes, read back *)

Lemma numbered_parsedFrom (ks : list KnownField) :
  forall offset,
    numbered (parsedFrom offset ks)
    = map (fun k => (pf_fieldNumber (parsedAs 0 k), pf_value (parsedAs 0 k)))
        ks.
Proof.
  induction ks as [| k ks IH]; intros offset; [reflexivity |].
  cbn [parsedFrom numbered map]. fold (numbered (parsedFrom
    (offset + JS.len (encodeKnown k)) ks)).
  rewrite IH. f_equal. destruct k; reflexivity.
Qed.

(** X13. Every value other than [null] and the empty string is written
    as exactly one well-formed field, whose number tells the kind of the
    value (2 number, 3 string, 4 boolean, 5 object, 6 list):
    [parseProtoFields] reads that one field back. *)
Theorem encodeProtobufValue_one_field (value : JsonValue) :
  value <> JNull -> value <> JString "" ->
  exists payload,
    option_map numbered
      (parseProtoFields (ToolEncoding.encodeProtobufValue value))
    = Some [(valueFieldNumber value, payload)].
Proof.
  intros Hnull Hempty.
  assert (Hk : exists k,
             knownOk k
             /\ ToolEncoding.encodeProtobufValue value = encodeKnowns [k]
             /\ pf_fieldNumber (parsedAs 0 k) = valueFieldNumber value).
  { destruct value as [| bits | s | b | items | entries].
    - congruence.
    - exists (KFixed64 2 bits).
      split; [cbn; lia | split; reflexivity].
    - destruct s as [| c s]; [congruence |].
      exists (KBytes 3 (TextEncoder_encode (String c s))).
      split; [cbn; lia | split; [| reflexivity]].
      unfold encodeKnowns, concatBytes. cbn [map List.concat].
      rewrite app_nil_r. reflexivity.
    - exists (KVarint 4 (if b then 1 else 0)).
      split; [destruct b; cbn; lia | split; destruct b; reflexivity].
    - eexists (KBytes 6 _).
      split; [cbn; lia | split; [| reflexivity]].
      unfold encodeKnowns, concatBytes. cbn [map List.concat].
      rewrite app_nil_r. reflexivity.
    - eexists (KBytes 5 _).
      split; [cbn; lia | split; [| reflexivity]].
      unfold encodeKnowns, concatBytes. cbn [map List.concat].
      rewrite app_nil_r. reflexivity. }
  destruct Hk as (k & Hok & Henc & Hnum).
  exists (pf_value (parsedAs 0 k)).
  rewrite Henc, parseProtoFields_known by (constructor; [assumption |
                                            constructor]).
  cbn [option_map]. rewrite numbered_parsedFrom. cbn [map].
  rewrite Hnum. reflexivity.
Qed.

Lemma encodeProtobufValue_one_field_witness :
  exists payload,
    option_map numbered
      (parseProtoFields
         (ToolEncoding.encodeProtobufValue (JArray [JNull; JBool true])))
    = Some [(6, payload)].
Proof.
  exact (encodeProtobufValue_one_field (JArray [JNull; JBool true])
           ltac:(discriminate) ltac:(discriminate)).
Defined.

Lemma encodeKnowns_app (ks1 ks2 : list KnownField) :
  encodeKnowns (ks1 ++ ks2) = encodeKnowns ks1 ++ encodeKnowns ks2.
Proof.
  unfold encodeKnowns, concatBytes. rewrite map_app. apply concat_app.
Qed.

Lemma encodeKnowns_single (k : KnownField) :
  encodeKnowns [k] = encodeKnown k.
Proof. unfold encodeKnowns, concatBytes. cbn. apply app_nil_r. Qed.

Lemma encodeStringField_known (fieldNumber : Z) (value : string) :
  ToolEncoding.encodeStringField fieldNumber value
  = encodeKnowns (stringKnown fieldNumber value).
Proof.
  destruct value as [| c s]; [reflexivity |].
  unfold encodeKnowns, concatBytes. cbn [stringKnown map List.concat].
  rewrite app_nil_r. reflexivity.
Qed.

Lemma stringKnown_ok (fieldNumber : Z) (value : string) :
  1 <= fieldNumber <= 15 -> Forall knownOk (stringKnown fieldNumber value).
Proof.
  intros Hf. destruct value; repeat constructor; cbn; lia.
Qed.

Lemma stringKnown_numbered (fieldNumber : Z) (value : string) :
  map (fun k => (pf_fieldNumber (parsedAs 0 k), pf_value (parsedAs 0 k)))
    (stringKnown fieldNumber value)
  = stringEntry fieldNumber value.
Proof. destruct value; reflexivity. Qed.

(** X14. A tool definition read back with [parseProtoFields]: name (1),
    description (2), input schema (3), provider (4) and tool name (5), in
    that order; a string that is empty and a schema that is falsy leave
    no field at all. *)
Theorem encodeMcpToolDefinition_fields
    (name description : string) (inputSchema : JsonValue)
    (providerIdentifier toolName : string) :
  option_map numbered
    (parseProtoFields
       (ToolEncoding.encodeMcpToolDefinition name description inputSchema
          providerIdentifier toolName))
  = Some
      (stringEntry 1 name ++ stringEntry 2 description
         ++ (if ToolEncoding.truthy inputSchema
             then [(3, VBytes (ToolEncoding.encodeProtobufValue inputSchema))]
             else [])
         ++ stringEntry 4 providerIdentifier ++ stringEntry 5 toolName).
Proof.
  set (schema :=
         if ToolEncoding.truthy inputSchema
         then [KBytes 3 (ToolEncoding.encodeProtobufValue inputSchema)]
         else []).
  assert (Henc :
            ToolEncoding.encodeMcpToolDefinition name description
              inputSchema providerIdentifier toolName
            = encodeKnowns
                (stringKnown 1 name ++ stringKnown 2 description ++ schema
                   ++ stringKnown 4 providerIdentifier
                   ++ stringKnown 5 toolName)).
  { unfold ToolEncoding.encodeMcpToolDefinition, schema.
    rewrite !encodeKnowns_app, <- !encodeStringField_known.
    destruct (ToolEncoding.truthy inputSchema);
      rewrite ?encodeKnowns_single;
      unfold concatBytes; cbn [app List.concat];
      rewrite ?app_nil_r; reflexivity. }
  assert (Hok : Forall knownOk
                  (stringKnown 1 name ++ stringKnown 2 description
                     ++ schema ++ stringKnown 4 providerIdentifier
                     ++ stringKnown 5 toolName)).
  { repeat (apply Forall_app; split); try (apply stringKnown_ok; lia).
    unfold schema. destruct (ToolEncoding.truthy inputSchema);
      repeat constructor; cbn; lia. }
  rewrite Henc, parseProtoFields_known by assumption.
  cbn [option_map]. rewrite numbered_parsedFrom, !map_app.
  rewrite !stringKnown_numbered. unfold schema.
  destruct (ToolEncoding.truthy inputSchema); reflexivity.
Qed.

Lemma parse_wrapped (A : Type) (wrap : A -> list Z) (xs : list A) :
  option_map numbered
    (parseProtoFields
       (concatBytes
          (map (fun x => ToolEncoding.encodeMessageField 1 (wrap x)) xs)))
  = Some (map (fun x => (1, VBytes (wrap x))) xs).
Proof.
  assert (Henc :
            concatBytes
              (map (fun x => ToolEncoding.encodeMessageField 1 (wrap x)) xs)
            = encodeKnowns (map (fun x => KBytes 1 (wrap x)) xs)).
  { unfold encodeKnowns. rewrite map_map. reflexivity. }
  rewrite Henc, parseProtoFields_known.
  - cbn [option_map]. rewrite numbered_parsedFrom, map_map. reflexivity.
  - apply Forall_map, Forall_forall. intros x _. cbn. lia.
Qed.

(** X15. Lists and objects read back entry by entry.  The payload of a
    list holds one wrapped entry per item, in order, also for a [null]
    item, whose wrapper is empty.  The payload of an object holds one
    entry per key in the order given; an entry holds the value as field
    2, and the key as field 1 unless the key is the empty string. *)
Theorem list_and_object_entries
    (items : list JsonValue) (entries : list (string * JsonValue)) :
  (ToolEncoding.encodeProtobufValue (JArray items)
   = ToolEncoding.encodeMessageField 6 (listValue items)
   /\ option_map numbered (parseProtoFields (listValue items))
      = Some (map (fun item =>
                     (1, VBytes (ToolEncoding.encodeProtobufValue item)))
                items))
  /\ (ToolEncoding.encodeProtobufValue (JObject entries)
      = ToolEncoding.encodeMessageField 5 (structValue entries)
      /\ option_map numbered (parseProtoFields (structValue entries))
         = Some (map (fun entry => (1, VBytes (mapEntry entry))) entries)
      /\ forall entry,
           option_map numbered (parseProtoFields (mapEntry entry))
           = Some (stringEntry 1 (fst entry)
                     ++ [(2, VBytes (ToolEncoding.encodeProtobufValue
                                       (snd entry)))])).
Proof.
  split; [split | split; [| split]].
  - reflexivity.
  - apply (parse_wrapped JsonValue ToolEncoding.encodeProtobufValue).
  - reflexivity.
  - apply (parse_wrapped (string * JsonValue)%type mapEntry).
  - intros [key val]. cbn [fst snd].
    assert (Henc :
              mapEntry (key, val)
              = encodeKnowns
                  (stringKnown 1 key
                     ++ [KBytes 2 (ToolEncoding.encodeProtobufValue val)])).
    { unfold mapEntry. cbn [fst snd].
      rewrite encodeKnowns_app, <- encodeStringField_known.
      rewrite encodeKnowns_single.
      unfold concatBytes. cbn [List.concat].
      rewrite !app_nil_r. reflexivity. }
    rewrite Henc, parseProtoFields_known.
    + cbn [option_map]. rewrite numbered_parsedFrom, map_app.
      rewrite stringKnown_numbered. reflexivity.
    + apply Forall_app. split; [apply stringKnown_ok; lia |].
      repeat constructor; cbn; lia.
Qed.

(** ** Text deltas in the data frames of [main] *)

Lemma stringOfBytes_encode (text : string) :
  stringOfBytes (TextEncoder_encode text) = text.
Proof.
  unfold stringOfBytes, TextEncoder_encode. rewrite map_map.
  rewrite (map_ext _ (fun c => c)).
  - rewrite map_id. apply string_of_list_ascii_of_string.
  - intros c. rewrite N2Z.id. apply ascii_N_embedding.
Qed.

(** A text made of ASCII characters only decodes to itself. *)
Lemma decode_fatal_ascii (text : string) :
  Forall (fun b => b < 128) (TextEncoder_encode text) ->
  TextDecoder_decode_fatal (TextEncoder_encode text) = Some text.
Proof.
  intros Hascii. unfold TextDecoder_decode_fatal.
  assert (Hpos : Forall (fun b => 0 <= b) (TextEncoder_encode text)).
  { unfold TextEncoder_encode. apply Forall_map, Forall_forall.
    intros c _. lia. }
  assert (Hwf : utf8WellFormed (TextEncoder_encode text) = true).
  { induction (TextEncoder_encode text) as [| b bytes IH]; [reflexivity |].
    inversion Hascii; inversion Hpos; subst. cbn [utf8WellFormed].
    destruct (Z.leb_spec 0 b); [| lia].
    destruct (Z.leb_spec b 127); [| lia].
    cbn [andb]. auto. }
  rewrite Hwf. rewrite <- (stringOfBytes_encode text) at 2.
  destruct (TextEncoder_encode text) as [| b bytes]; [reflexivity |].
  inversion Hascii as [| ? ? Hb _]; subst.
  destruct b as [| p | p]; try reflexivity.
  assert (Hne : Z.pos p <> 239) by lia.
  destruct p as [p | p |]; try reflexivity.
  do 7 (destruct p as [p | p |]; try reflexivity); lia.
Qed.

Lemma fieldsOf_single (k : KnownField) :
  knownOk k -> fieldsOf (encodeKnown k) = [parsedAs 0 k].
Proof.
  intros Hok. unfold fieldsOf.
  rewrite <- encodeKnowns_single, parseProtoFields_known; [reflexivity |].
  constructor; [assumption | constructor].
Qed.

(** X16. A data frame that carries a text delta (interaction update,
    message, text delta, each as field 1) makes [main] write that text and
    note that an interaction update was seen, whenever the text is not
    empty and its bytes decode to it; the other flags and the texts
    written before are kept. *)
Theorem text_delta_is_written (s : Summary) (text : string) (flag : Z) :
  TextDecoder_decode_fatal (TextEncoder_encode text) = Some text ->
  text <> EmptyString -> 0 <= flag < 128 ->
  handleFrame s (mkFrame flag (textDeltaMessage text))
  = mkSummary (gotInteractionQuery s) (gotExecServerMessage s) true
      (written s ++ [text]).
Proof.
  intros Hdecode Hne Hflag.
  unfold handleFrame, isTrailer. cbn [flags payload].
  rewrite and_small, land_7bit_128 by lia. cbn [Z.eqb negb].
  unfold textDeltaMessage.
  set (inner := encodeStringField 1 text).
  set (message := encodeMessageField 1 inner).
  change (encodeMessageField 1 message) with (encodeKnown (KBytes 1 message)).
  rewrite fieldsOf_single by (cbn; lia).
  cbn [fold_left parsedAs processField pf_fieldNumber pf_wireType pf_value
         Z.eqb Pos.eqb].
  subst message.
  change (encodeMessageField 1 inner) with (encodeKnown (KBytes 1 inner)).
  rewrite fieldsOf_single by (cbn; lia).
  cbn [fold_left parsedAs writeMessage bytesField pf_fieldNumber pf_wireType
         pf_value Z.eqb Pos.eqb andb].
  subst inner.
  change (encodeStringField 1 text)
    with (encodeKnown (KBytes 1 (TextEncoder_encode text))).
  rewrite fieldsOf_single by (cbn; lia).
  cbn [fold_left parsedAs writeTextDelta bytesField pf_fieldNumber
         pf_wireType pf_value Z.eqb Pos.eqb andb].
  rewrite Hdecode. destruct text; [congruence | reflexivity].
Qed.

Lemma text_delta_is_written_witness :
  handleFrame (mkSummary false false false [])
    (mkFrame 0 (textDeltaMessage "Hello"))
  = mkSummary false false true ["Hello"%string].
Proof.
  exact (text_delta_is_written (mkSummary false false false []) "Hello" 0
           eq_refl ltac:(discriminate) ltac:(lia)).
Defined.

(** ** The model list parser on a response that ends too early *)






(** ** The model list parser on a well-formed response *)

Lemma models_loop_same (bytes : list Z) :
  forall value shift pos,
    FetchModels.decodeVarint_loop bytes value shift pos
    = ToolEncoding.decodeVarint_loop bytes value shift pos.
Proof.
  induction bytes as [| byte rest IH]; intros value shift pos;
    [reflexivity |].
  cbn [FetchModels.decodeVarint_loop ToolEncoding.decodeVarint_loop].
  destruct (JS.and byte 128 =? 0); [reflexivity | apply IH].
Qed.

Lemma models_decodeVarint_encode_at (pre rest : list Z) (v : Z) :
  0 <= v < 2 ^ 31 ->
  FetchModels.decodeVarint (pre ++ encodeVarint v ++ rest) (JS.len pre)
  = (v, JS.len pre + JS.len (encodeVarint v)).
Proof.
  intros Hv. unfold FetchModels.decodeVarint.
  pose proof (len_nonneg pre) as Hp.
  destruct (Z.ltb_spec (JS.len pre) 0); [lia |].
  rewrite skipn_len_app, models_loop_same.
  rewrite decodeVarint32_loop_encode by lia.
  rewrite Z.shiftl_0_r, Z.lor_0_l. reflexivity.
Qed.

Lemma models_tag (pre rest : list Z) (f wt : Z) :
  1 <= f <= 15 -> wt = 0 \/ wt = 2 \/ wt = 1 \/ wt = 5 ->
  let t := JS.toUint8 (JS.or (JS.shl f 3) wt) in
  FetchModels.decodeVarint (pre ++ t :: rest) (JS.len pre)
  = (t, JS.len pre + 1)
  /\ FetchModels.ushr t 3 = f /\ JS.and t 7 = wt.
Proof.
  intros Hf Hwt t.
  destruct (tagByte_spec f wt Hf Hwt) as (Henc & Hpos & Hnum & Hland).
  fold t in Henc, Hpos, Hnum, Hland.
  assert (Ht : t < 256) by (apply Z.mod_pos_bound; lia).
  split; [| split].
  - change (t :: rest) with ([t] ++ rest). rewrite <- Henc.
    rewrite models_decodeVarint_encode_at by lia.
    rewrite Henc. reflexivity.
  - unfold FetchModels.ushr. rewrite Z.mod_small by lia. exact Hnum.
  - rewrite and_small by lia. exact Hland.
Qed.

Lemma modelStep_string (decode : list Z -> string) (pre rest : list Z)
    (f : Z) (s : string) (m : FetchModels.Model) :
  1 <= f <= 15 -> JS.len (TextEncoder_encode s) < 2 ^ 31 ->
  FetchModels.modelStep decode (pre ++ encodeStringField f s ++ rest)
    (JS.len pre) m
  = (JS.len pre + JS.len (encodeStringField f s),
     FetchModels.assign f (decode (TextEncoder_encode s)) m).
Proof.
  intros Hf Hs. pose proof (len_nonneg (TextEncoder_encode s)) as H0.
  unfold encodeStringField.
  set (t := JS.toUint8 (JS.or (JS.shl f 3) 2)).
  set (enc := TextEncoder_encode s) in *.
  destruct (models_tag pre ((encodeVarint (JS.len enc) ++ enc) ++ rest) f 2
              Hf (or_intror (or_introl eq_refl)))
    as (Htag & Hnum & Hwt).
  fold t in Htag, Hnum, Hwt.
  unfold FetchModels.modelStep. cbn [app]. rewrite Htag, Hnum, Hwt.
  cbn [Z.eqb Pos.eqb]. unfold FetchModels.decodeString.
  replace (JS.len pre + 1) with (JS.len (pre ++ [t]))
    by (rewrite len_app; reflexivity).
  change (pre ++ t :: (encodeVarint (JS.len enc) ++ enc) ++ rest)
    with (pre ++ [t] ++ (encodeVarint (JS.len enc) ++ enc) ++ rest).
  rewrite (app_assoc pre [t]), <- (app_assoc (encodeVarint (JS.len enc))).
  rewrite models_decodeVarint_encode_at by lia.
  rewrite <- len_app, (app_assoc (pre ++ [t])).
  rewrite slice_middle.
  rewrite !len_cons, !len_app, len_cons, len_nil.
  f_equal. lia.
Qed.

Lemma modelLoop_entry (decode : list Z -> string) (pre rest : list Z)
    (m : FetchModels.Model) (fuel : nat) :
  JS.len (FetchModels.encodeModel m) < 2 ^ 31 -> (4 <= fuel)%nat ->
  FetchModels.modelLoop decode fuel
    (pre ++ FetchModels.encodeModel m ++ rest) (JS.len pre)
    (JS.len pre + JS.len (FetchModels.encodeModel m))
    (FetchModels.mkModel "" "" "")
  = Some (FetchModels.decoded decode m).
Proof.
  intros Hlen Hfuel.
  do 4 (destruct fuel as [| fuel]; [lia |]). clear Hfuel.
  unfold FetchModels.encodeModel, concatBytes in *.
  cbn [List.concat] in *. rewrite app_nil_r in *.
  set (f1 := encodeStringField 1 (FetchModels.modelId m)) in *.
  set (f3 := encodeStringField 3 (FetchModels.displayModelId m)) in *.
  set (f4 := encodeStringField 4 (FetchModels.displayName m)) in *.
  assert (H1 : 2 <= JS.len f1 /\ JS.len (TextEncoder_encode
                 (FetchModels.modelId m)) < JS.len f1).
  { subst f1. unfold encodeStringField. rewrite len_cons, len_app.
    pose proof (encodeVarint_nonempty
                  (JS.len (TextEncoder_encode (FetchModels.modelId m)))).
    pose proof (len_nonneg (TextEncoder_encode (FetchModels.modelId m))).
    lia. }
  assert (H3 : 2 <= JS.len f3 /\ JS.len (TextEncoder_encode
                 (FetchModels.displayModelId m)) < JS.len f3).
  { subst f3. unfold encodeStringField. rewrite len_cons, len_app.
    pose proof (encodeVarint_nonempty
                  (JS.len (TextEncoder_encode
                             (FetchModels.displayModelId m)))).
    pose proof (len_nonneg (TextEncoder_encode
                              (FetchModels.displayModelId m))).
    lia. }
  assert (H4 : 2 <= JS.len f4 /\ JS.len (TextEncoder_encode
                 (FetchModels.displayName m)) < JS.len f4).
  { subst f4. unfold encodeStringField. rewrite len_cons, len_app.
    pose proof (encodeVarint_nonempty
                  (JS.len (TextEncoder_encode (FetchModels.displayName m)))).
    pose proof (len_nonneg (TextEncoder_encode
                              (FetchModels.displayName m))).
    lia. }
  rewrite !len_app in Hlen. rewrite !len_app.
  (* first field *)
  cbn [FetchModels.modelLoop].
  destruct (Z.ltb_spec (JS.len pre)
              (JS.len pre + (JS.len f1 + (JS.len f3 + JS.len f4))));
    [| lia].
  rewrite <- (app_assoc f1). subst f1.
  rewrite modelStep_string by lia.
  set (f1 := encodeStringField 1 (FetchModels.modelId m)) in *.
  (* second field *)
  destruct (Z.ltb_spec (JS.len pre + JS.len f1)
              (JS.len pre + (JS.len f1 + (JS.len f3 + JS.len f4))));
    [| lia].
  rewrite <- len_app, (app_assoc pre f1), <- (app_assoc f3). subst f3.
  rewrite modelStep_string by lia.
  set (f3 := encodeStringField 3 (FetchModels.displayModelId m)) in *.
  (* third field *)
  rewrite len_app.
  destruct (Z.ltb_spec (JS.len pre + JS.len f1 + JS.len f3)
              (JS.len pre + (JS.len f1 + (JS.len f3 + JS.len f4))));
    [| lia].
  rewrite <- !len_app, (app_assoc (pre ++ f1) f3). subst f4.
  rewrite modelStep_string by lia.
  set (f4 := encodeStringField 4 (FetchModels.displayName m)) in *.
  rewrite !len_app.
  destruct (Z.ltb_spec (JS.len pre + JS.len f1 + JS.len f3 + JS.len f4)
              (JS.len pre + (JS.len f1 + (JS.len f3 + JS.len f4))));
    [lia |].
  reflexivity.
Qed.

Lemma parseModels_entries (decode : list Z -> string)
    (ms : list FetchModels.Model) :
  Forall (fun m => JS.len (FetchModels.encodeModel m) < 2 ^ 31) ms ->
  forall pre models fuel,
    (List.length ms + 4 <= fuel)%nat ->
    FetchModels.parseModels decode fuel
      (pre ++ FetchModels.encodeModelList ms) (JS.len pre) models
    = Some (models
              ++ filter FetchModels.kept
                   (map (FetchModels.decoded decode) ms)).
Proof.
  induction 1 as [| m ms Hm _ IH]; intros pre models fuel Hfuel.
  - destruct fuel as [| fuel]; [cbn in Hfuel; lia |].
    cbn [FetchModels.encodeModelList concatBytes map List.concat
           FetchModels.parseModels filter].
    rewrite !app_nil_r, Z.ltb_irrefl. reflexivity.
  - destruct fuel as [| fuel]; [cbn in Hfuel; lia |].
    cbn [List.length] in Hfuel.
    unfold FetchModels.encodeModelList, concatBytes in *.
    cbn [map List.concat] in *.
    set (restBytes :=
           List.concat
             (map (fun m0 =>
                     encodeMessageField 1 (FetchModels.encodeModel m0))
                ms)) in *.
    unfold encodeMessageField at 1.
    set (body := FetchModels.encodeModel m) in *.
    set (t := JS.toUint8 (JS.or (JS.shl 1 3) 2)).
    pose proof (len_nonneg body) as Hb.
    pose proof (len_nonneg restBytes) as Hr.
    pose proof (encodeVarint_nonempty (JS.len body)) as Hv.
    destruct (models_tag pre
                ((encodeVarint (JS.len body) ++ body) ++ restBytes) 1 2
                ltac:(lia) (or_intror (or_introl eq_refl)))
      as (Htag & Hnum & Hwt).
    fold t in Htag, Hnum, Hwt.
    cbn [FetchModels.parseModels app].
    destruct (Z.ltb_spec (JS.len pre)
                (JS.len (pre ++ t :: (encodeVarint (JS.len body) ++ body)
                           ++ restBytes)))
      as [_ | Hge];
      [| rewrite len_app, len_cons, !len_app in Hge; lia].
    rewrite Htag, Hnum, Hwt. cbn [Z.eqb Pos.eqb andb].
    replace (JS.len pre + 1) with (JS.len (pre ++ [t]))
      by (rewrite len_app; reflexivity).
    change (pre ++ t :: (encodeVarint (JS.len body) ++ body) ++ restBytes)
      with (pre ++ [t] ++ (encodeVarint (JS.len body) ++ body)
              ++ restBytes).
    rewrite (app_assoc pre [t]), <- (app_assoc (encodeVarint _)).
    rewrite models_decodeVarint_encode_at by lia.
    rewrite <- len_app, (app_assoc (pre ++ [t])).
    subst body. rewrite modelLoop_entry by (assumption || lia).
    rewrite <- len_app, (app_assoc _ _ restBytes).
    rewrite IH by lia.
    cbn [map filter].
    destruct (FetchModels.kept (FetchModels.decoded decode m));
      rewrite <- ?app_assoc; reflexivity.
Qed.

(** X18. On a well-formed response (a frame header, then one entry per
    model with the model id, the display id and the display name as string
    fields 1, 3 and 4) the script ends and lists the models in order, each
    with its three strings as decoded, leaving out the models whose model
    id and display id both decode to the empty string. *)
Theorem models_of_wellformed_response
    (decode : list Z -> string) (ms : list FetchModels.Model)
    (header : list Z) (fuel : nat) :
  Forall (fun m => JS.len (FetchModels.encodeModel m) < 2 ^ 31) ms ->
  JS.len header = 5 ->
  (List.length ms + 4 <= fuel)%nat ->
  FetchModels.modelsOf decode fuel (header ++ FetchModels.encodeModelList ms)
  = Some (filter FetchModels.kept (map (FetchModels.decoded decode) ms)).
Proof.
  intros Hok Hheader Hfuel. unfold FetchModels.modelsOf.
  rewrite <- Hheader, sliceFrom_app.
  exact (parseModels_entries decode ms Hok [] [] fuel Hfuel).
Qed.

Lemma models_of_wellformed_response_witness :
  FetchModels.modelsOf stringOfBytes 6
    ([0; 0; 0; 0; 26]
       ++ FetchModels.encodeModelList
            [ FetchModels.mkModel "gpt" "" "GPT";
              FetchModels.mkModel "" "" "none" ])
  = Some [FetchModels.mkModel "gpt" "" "GPT"].
Proof.
  exact (models_of_wellformed_response stringOfBytes
           [ FetchModels.mkModel "gpt" "" "GPT";
             FetchModels.mkModel "" "" "none" ]
           [0; 0; 0; 0; 26]
           6
           ltac:(repeat constructor; cbv; reflexivity)
           eq_refl ltac:(cbn; lia)).
Defined.

(** ** The authentication demo script *)

Lemma substring_parts (s : string) :
  forall a b : nat,
    (a <= b <= String.length s)%nat ->
    s = String.append (String.substring 0 a s)
          (String.append (String.substring a (b - a) s)
             (String.substring b (String.length s - b) s)).
Proof.
  induction s as [| c s IH]; intros a b Hab.
  - cbn in Hab. assert (a = 0%nat) by lia. assert (b = 0%nat) by lia.
    subst. reflexivity.
  - destruct a as [| a].
    + destruct b as [| b].
      * cbn [String.substring Nat.sub String.length String.append].
        f_equal. specialize (IH 0%nat 0%nat ltac:(lia)).
        cbn [Nat.sub] in IH.
        replace (String.substring 0 0 s) with EmptyString in IH
          by (destruct s; reflexivity).
        rewrite Nat.sub_0_r in IH. exact IH.
      * cbn [String.substring Nat.sub String.length String.append].
        f_equal. cbn [String.length] in Hab.
        specialize (IH 0%nat b ltac:(lia)).
        replace (String.substring 0 0 s) with EmptyString in IH
          by (destruct s; reflexivity).
        rewrite Nat.sub_0_r in IH. exact IH.
    + destruct b as [| b]; [lia |].
      cbn [String.length] in Hab.
      cbn [String.substring Nat.sub String.length String.append].
      f_equal. apply IH. lia.
Qed.

Lemma substring_length (s : string) :
  forall n m : nat,
    (n + m <= String.length s)%nat ->
    String.length (String.substring n m s) = m.
Proof.
  induction s as [| c s IH]; intros n m Hnm.
  - cbn in Hnm. assert (n = 0%nat) by lia. assert (m = 0%nat) by lia.
    subst. reflexivity.
  - cbn [String.length] in Hnm. destruct n as [| n].
    + destruct m as [| m]; [reflexivity |].
      cbn [String.substring String.length]. f_equal. apply IH. lia.
    + cbn [String.substring]. apply IH. lia.
Qed.

(** X19. What [maskToken] shows of a token of 20 characters or more:
    its first ten and its last ten characters, with "..." in place of
    what lies between, which is the token less 20 characters; a token of
    exactly 20 characters is therefore shown in full. *)
Theorem maskToken_shows_twenty (token : string) :
  (20 <= String.length token)%nat ->
  exists first hidden last,
    token = String.append first (String.append hidden last)
    /\ String.length first = 10%nat /\ String.length last = 10%nat
    /\ String.length hidden = (String.length token - 20)%nat
    /\ AuthDemo.maskToken (Some token)
       = String.append first (String.append "..." last).
Proof.
  intros Hlen.
  set (n := String.length token) in *.
  exists (String.substring 0 10 token),
         (String.substring 10 (n - 20) token),
         (String.substring (n - 10) 10 token).
  split; [| split; [| split; [| split]]].
  - pose proof (substring_parts token 10 (n - 10) ltac:(fold n; lia)) as H.
    fold n in H.
    replace (n - 10 - 10)%nat with (n - 20)%nat in H by lia.
    replace (n - (n - 10))%nat with 10%nat in H by lia. exact H.
  - apply substring_length. fold n. lia.
  - apply substring_length. fold n. lia.
  - apply substring_length. fold n. lia.
  - unfold AuthDemo.maskToken, AuthDemo.truthy.
    destruct token as [| c token]; [cbn in n; lia |].
    cbn [AuthDemo.nonEmpty]. fold n.
    destruct (Z.ltb_spec (Z.of_nat n) 20); [lia |].
    unfold AuthDemo.substring. fold n.
    replace (Z.to_nat (Z.min (Z.max 0 (Z.min 0 (Z.of_nat n)))
                         (Z.max 0 (Z.min 10 (Z.of_nat n)))))
      with 0%nat by lia.
    replace (Z.to_nat
               (Z.max (Z.max 0 (Z.min 0 (Z.of_nat n)))
                  (Z.max 0 (Z.min 10 (Z.of_nat n)))
                - Z.min (Z.max 0 (Z.min 0 (Z.of_nat n)))
                    (Z.max 0 (Z.min 10 (Z.of_nat n)))))
      with 10%nat by lia.
    replace (Z.to_nat
               (Z.min (Z.max 0 (Z.min (Z.of_nat n - 10) (Z.of_nat n)))
                  (Z.max 0 (Z.min (Z.of_nat n) (Z.of_nat n)))))
      with (n - 10)%nat by lia.
    replace (Z.to_nat
               (Z.max (Z.max 0 (Z.min (Z.of_nat n - 10) (Z.of_nat n)))
                  (Z.max 0 (Z.min (Z.of_nat n) (Z.of_nat n)))
                - Z.min (Z.max 0 (Z.min (Z.of_nat n - 10) (Z.of_nat n)))
                    (Z.max 0 (Z.min (Z.of_nat n) (Z.of_nat n)))))
      with 10%nat by lia.
    reflexivity.
Qed.

Lemma maskToken_shows_twenty_witness :
  exists first hidden last,
    "0123456789abcdefghij"%string
    = String.append first (String.append hidden last)
    /\ String.length first = 10%nat /\ String.length last = 10%nat
    /\ String.length hidden = 0%nat
    /\ AuthDemo.maskToken (Some "0123456789abcdefghij"%string)
       = String.append first (String.append "..." last).
Proof.
  exact (maskToken_shows_twenty "0123456789abcdefghij" ltac:(cbn; lia)).
Defined.

(** X20. After [setAuthentication] the three getters give back what was
    stored, except that an empty string, and a missing API key, come back
    as [undefined]; this holds whatever the manager held before. *)
Theorem set_then_get (m : AuthDemo.Manager) (access refresh : string)
    (key : option string) :
  let m' := AuthDemo.setAuthentication access refresh key m in
  fst (AuthDemo.getAccessToken m') = AuthDemo.truthy (Some access)
  /\ fst (AuthDemo.getRefreshToken m') = AuthDemo.truthy (Some refresh)
  /\ fst (AuthDemo.getApiKey m') = AuthDemo.truthy key.
Proof.
  cbn zeta. unfold AuthDemo.getAccessToken, AuthDemo.getRefreshToken,
    AuthDemo.getApiKey, AuthDemo.setAuthentication.
  cbn [AuthDemo.cachedAccessToken AuthDemo.cachedRefreshToken
         AuthDemo.cachedApiKey AuthDemo.file AuthDemo.field
         AuthDemo.accessToken AuthDemo.refreshToken AuthDemo.apiKey].
  repeat split.
  - destruct (AuthDemo.truthy (Some access)); reflexivity.
  - destruct (AuthDemo.truthy (Some refresh)); reflexivity.
  - destruct (AuthDemo.truthy key); reflexivity.
Qed.

(** X21. The cache can hide the stored API key.  On a manager that has
    read nothing yet, over a file that holds an access token, a refresh
    token and an API key, [getAllCredentials] returns all three; called
    after [getAccessToken], which caches the two tokens only, it returns
    the tokens without the API key. *)
Theorem getAllCredentials_loses_api_key
    (access refresh key : string) :
  access <> EmptyString -> refresh <> EmptyString ->
  let stored :=
    AuthDemo.mkAuth (Some access) (Some refresh) (Some key) in
  let m := AuthDemo.mkManager (Some stored) None None None in
  fst (AuthDemo.getAllCredentials m) = stored
  /\ fst (AuthDemo.getAllCredentials (snd (AuthDemo.getAccessToken m)))
     = AuthDemo.mkAuth (Some access) (Some refresh) None.
Proof.
  intros Ha Hr. cbn zeta. split; [reflexivity |].
  destruct access as [| c access]; [congruence |].
  destruct refresh as [| c' refresh]; [congruence |].
  reflexivity.
Qed.

Lemma getAllCredentials_loses_api_key_witness :
  let stored :=
    AuthDemo.mkAuth (Some "a"%string) (Some "r"%string) (Some "k"%string) in
  let m := AuthDemo.mkManager (Some stored) None None None in
  fst (AuthDemo.getAllCredentials m) = stored
  /\ fst (AuthDemo.getAllCredentials (snd (AuthDemo.getAccessToken m)))
     = AuthDemo.mkAuth (Some "a"%string) (Some "r"%string) None.
Proof.
  exact (getAllCredentials_loses_api_key "a" "r" "k"
           ltac:(discriminate) ltac:(discriminate)).
Defined.

Lemma headerGet_set_same (headers : AuthDemo.Headers) (name value : string) :
  AuthDemo.headerGet (AuthDemo.headerSet headers name value) name
  = Some value.
Proof.
  induction headers as [| [n v] rest IH]; cbn.
  - rewrite String.eqb_refl. reflexivity.
  - destruct (String.eqb n name) eqn:E; cbn; rewrite E;
      [reflexivity | exact IH].
Qed.

Lemma headerGet_set_other (headers : AuthDemo.Headers)
    (name value other : string) :
  name <> other ->
  AuthDemo.headerGet (AuthDemo.headerSet headers name value) other
  = AuthDemo.headerGet headers other.
Proof.
  intros Hne. induction headers as [| [n v] rest IH]; cbn.
  - destruct (String.eqb_spec name other); [contradiction | reflexivity].
  - destruct (String.eqb_spec n name) as [-> | Hn]; cbn.
    + destruct (String.eqb_spec name other); [contradiction | reflexivity].
    + destruct (String.eqb n other); [reflexivity | exact IH].
Qed.

Lemma getValidAccessToken_token (isTokenExpiringSoon : string -> bool)
    (m : AuthDemo.Manager) :
  fst (AuthDemo.getValidAccessToken isTokenExpiringSoon m)
  = fst (AuthDemo.getAccessToken m).
Proof.
  unfold AuthDemo.getValidAccessToken.
  destruct (AuthDemo.getAccessToken m) as [[token |] m']; [| reflexivity].
  destruct (isTokenExpiringSoon token); cbn [negb fst].
  - destruct (AuthDemo.getApiKey m'). reflexivity.
  - reflexivity.
Qed.

(** X22. The request that the interceptor passes on: ghost mode is
    always "true", whatever the caller had set; a request id that the
    caller supplied is kept, and one is generated only when it is missing
    or empty; the authorization header is the stored access token as a
    bearer token whether or not the token is about to expire, and is left
    as the caller had it when no token is stored. *)
Theorem intercept_headers (isTokenExpiringSoon : string -> bool)
    (uuid : string) (m : AuthDemo.Manager) (headers : AuthDemo.Headers) :
  let sent := fst (AuthDemo.intercept isTokenExpiringSoon uuid m headers) in
  AuthDemo.headerGet sent "x-ghost-mode" = Some "true"%string
  /\ AuthDemo.headerGet sent "x-request-id"
     = match AuthDemo.truthy (AuthDemo.headerGet headers "x-request-id") with
       | Some id => Some id
       | None => Some uuid
       end
  /\ AuthDemo.headerGet sent "authorization"
     = match fst (AuthDemo.getAccessToken m) with
       | Some token => Some (String.append "Bearer " token)
       | None => AuthDemo.headerGet headers "authorization"
       end.
Proof.
  cbn zeta. unfold AuthDemo.intercept.
  pose proof (getValidAccessToken_token isTokenExpiringSoon m) as Htok.
  destruct (AuthDemo.getValidAccessToken isTokenExpiringSoon m)
    as [token m'].
  cbn [fst] in Htok. rewrite <- Htok.
  set (h0 := match token with
             | Some t =>
                 AuthDemo.headerSet headers "authorization"
                   (String.append "Bearer " t)
             | None => headers
             end).
  set (h3 := AuthDemo.headerSet
               (AuthDemo.headerSet
                  (AuthDemo.headerSet h0 "x-ghost-mode" "true")
                  "x-cursor-client-version" "cli-demo")
               "x-cursor-client-type" "cli").
  assert (Hid : AuthDemo.headerGet h3 "x-request-id"
                = AuthDemo.headerGet headers "x-request-id").
  { unfold h3. rewrite !headerGet_set_other by discriminate.
    unfold h0. destruct token; [| reflexivity].
    apply headerGet_set_other. discriminate. }
  assert (Hghost : AuthDemo.headerGet h3 "x-ghost-mode" = Some "true"%string).
  { unfold h3. rewrite !headerGet_set_other by discriminate.
    apply headerGet_set_same. }
  assert (Hauth : AuthDemo.headerGet h3 "authorization"
                  = match token with
                    | Some t => Some (String.append "Bearer " t)
                    | None => AuthDemo.headerGet headers "authorization"
                    end).
  { unfold h3. rewrite !headerGet_set_other by discriminate.
    unfold h0. destruct token; [apply headerGet_set_same | reflexivity]. }
  cbn [fst]. rewrite Hid.
  destruct (AuthDemo.truthy (AuthDemo.headerGet headers "x-request-id"))
    as [id |] eqn:Etruthy.
  - split; [exact Hghost | split; [| exact Hauth]].
    rewrite Hid. unfold AuthDemo.truthy in Etruthy.
    destruct (AuthDemo.headerGet headers "x-request-id") as [v |];
      [| discriminate].
    destruct (AuthDemo.nonEmpty v); congruence.
  - split; [| split].
    + rewrite headerGet_set_other by discriminate. exact Hghost.
    + apply headerGet_set_same.
    + rewrite headerGet_set_other by discriminate. exact Hauth.
Qed.

Lemma append_assoc (a b c : string) :
  String.append (String.append a b) c = String.append a (String.append b c).
Proof. induction a as [| x a IH]; cbn; congruence. Qed.

Lemma collectStreamText_no_error (chunks : list AuthDemo.Chunk) :
  forallb (fun c => negb (AuthDemo.isError c)) chunks = true ->
  forall result,
    AuthDemo.collectStreamText chunks result
    = inr (String.append result
             (concatText (map AuthDemo.chunkText chunks))).
Proof.
  induction chunks as [| chunk chunks IH]; intros Hok result.
  - cbn. rewrite append_empty_r. reflexivity.
  - cbn [forallb] in Hok. apply andb_true_iff in Hok as [Hc Hok].
    unfold AuthDemo.isError in Hc. apply negb_true_iff in Hc.
    cbn [AuthDemo.collectStreamText map concatText fold_right].
    rewrite Hc, IH by assumption. fold (concatText (map AuthDemo.chunkText
                                                    chunks)).
    rewrite <- append_assoc. unfold AuthDemo.chunkText.
    destruct (String.eqb (AuthDemo.chunkType chunk) "text");
      [| rewrite append_empty_r; reflexivity].
    destruct (AuthDemo.truthy (AuthDemo.chunkContent chunk));
      [reflexivity | rewrite append_empty_r; reflexivity].
Qed.

(** X23. [collectStreamText] returns the contents of the text chunks put
    together, in order, when the stream has no error chunk.  At the first
    error chunk it throws instead, with the message of that chunk (or
    "Unknown streaming error"): the text collected so far is given up and
    the chunks that follow are not read. *)
Theorem collectStreamText_all_or_nothing
    (before after : list AuthDemo.Chunk) (failed : AuthDemo.Chunk) :
  forallb (fun c => negb (AuthDemo.isError c)) before = true ->
  AuthDemo.isError failed = true ->
  AuthDemo.collectStreamText before EmptyString
  = inr (concatText (map AuthDemo.chunkText before))
  /\ AuthDemo.collectStreamText (before ++ failed :: after) EmptyString
     = inl (match AuthDemo.chunkError failed with
            | Some message => message
            | None => "Unknown streaming error"%string
            end).
Proof.
  intros Hok Hfail. split.
  - rewrite collectStreamText_no_error by assumption. reflexivity.
  - assert (Hany : forall result,
               AuthDemo.collectStreamText (before ++ failed :: after) result
               = inl (match AuthDemo.chunkError failed with
                      | Some message => message
                      | None => "Unknown streaming error"%string
                      end)); [| apply Hany].
    induction before as [| chunk before IH]; intros result.
    + cbn [app AuthDemo.collectStreamText].
      unfold AuthDemo.isError in Hfail. rewrite Hfail. reflexivity.
    + cbn [forallb] in Hok. apply andb_true_iff in Hok as [Hc Hok].
      unfold AuthDemo.isError in Hc. apply negb_true_iff in Hc.
      cbn [app AuthDemo.collectStreamText]. rewrite Hc.
      apply IH. assumption.
Qed.

Lemma collectStreamText_all_or_nothing_witness :
  AuthDemo.collectStreamText
    [AuthDemo.mkChunk "text" (Some "Hel"%string) None;
     AuthDemo.mkChunk "text" (Some "lo"%string) None] EmptyString
  = inr "Hello"%string
  /\ AuthDemo.collectStreamText
       ([AuthDemo.mkChunk "text" (Some "Hel"%string) None;
         AuthDemo.mkChunk "text" (Some "lo"%string) None]
          ++ AuthDemo.mkChunk "error" None (Some "grpc-status 8"%string)
          :: [AuthDemo.mkChunk "text" (Some "!"%string) None]) EmptyString
     = inl "grpc-status 8"%string.
Proof.
  exact (collectStreamText_all_or_nothing
           [AuthDemo.mkChunk "text" (Some "Hel"%string) None;
            AuthDemo.mkChunk "text" (Some "lo"%string) None]
           [AuthDemo.mkChunk "text" (Some "!"%string) None]
           (AuthDemo.mkChunk "error" None (Some "grpc-status 8"%string))
           eq_refl eq_refl).
Defined.

(** ** Field numbers and the one-byte tag *)

Lemma tag_byte_wraps (fieldNumber wt : Z) :
  0 <= fieldNumber -> fieldNumber + 32 < 2 ^ 28 -> 0 <= wt < 8 ->
  JS.toUint8 (JS.or (JS.shl (fieldNumber + 32) 3) wt)
  = JS.toUint8 (JS.or (JS.shl fieldNumber 3) wt).
Proof.
  intros Hf Hmax Hwt.
  rewrite !shl_small by lia.
  rewrite !Z.shiftl_mul_pow2 by lia.
  rewrite !or_small by lia.
  unfold JS.toUint8. change 256 with (2 ^ 8).
  rewrite <- !Z.land_ones by lia.
  rewrite !Z.land_lor_distr_l. f_equal.
  rewrite !Z.land_ones by lia.
  replace ((fieldNumber + 32) * 2 ^ 3)
    with (fieldNumber * 2 ^ 3 + 1 * 2 ^ 8) by lia.
  apply Z_mod_plus_full.
Qed.

(** X24. The encoders keep the tag in a single byte, so field numbers
    are taken modulo 32: a field written under number [f + 32] is byte
    for byte the field written under number [f], and [parseProtoFields]
    reads it back as such. *)
Theorem field_number_wraps (fieldNumber value : Z) (data : list Z)
    (text : string) :
  0 <= fieldNumber -> fieldNumber + 32 < 2 ^ 28 ->
  encodeMessageField (fieldNumber + 32) data
  = encodeMessageField fieldNumber data
  /\ encodeStringField (fieldNumber + 32) text
     = encodeStringField fieldNumber text
  /\ encodeInt64Field (fieldNumber + 32) value
     = encodeInt64Field fieldNumber value
  /\ parseProtoFields (encodeMessageField (fieldNumber + 32) data)
     = parseProtoFields (encodeMessageField fieldNumber data).
Proof.
  intros Hf Hmax.
  unfold encodeMessageField, encodeStringField, encodeInt64Field.
  rewrite !tag_byte_wraps by lia. repeat split.
Qed.

Lemma field_number_wraps_witness :
  encodeMessageField (1 + 32) [7] = encodeMessageField 1 [7]
  /\ encodeStringField (1 + 32) "a" = encodeStringField 1 "a"
  /\ encodeInt64Field (1 + 32) 5 = encodeInt64Field 1 5
  /\ parseProtoFields (encodeMessageField (1 + 32) [7])
     = parseProtoFields (encodeMessageField 1 [7]).
Proof.
  exact (field_number_wraps 1 5 [7] "a" ltac:(lia) ltac:(lia)).
Defined.
